(** * repo_manager: the cross-process repository cache

    A shallow embedding of [src/repo_manager/__init__.py]: the key digest,
    the JSON index with its transactions, the advisory file locks and the
    pool operations [has], [evict] and [get], with the properties the
    design document states about them. *)

From Stdlib Require Import ZArith Ascii String.
From stdpp Require Import gmap strings list.

Open Scope string_scope.
Open Scope list_scope.
Open Scope Z_scope.

(** ** Exceptions and outcomes *)

(** The exceptions the module and its collaborators raise.  [NoRepoError]
    is the module's own class; the others are Python's, the json module's
    and GitPython's. *)
Inductive exn : Type :=
  | AttributeError
  | ValueError
  | FileNotFoundError
  | IsADirectoryError
  | NotADirectoryError
  | JSONDecodeError
  | OSError
  | GitCommandError
  | NoSuchPathError
  | InvalidGitRepositoryError
  | NoRepoError (repo : string).

Inductive outcome (A : Type) : Type :=
  | Ok (a : A)
  | Raise (e : exn).
Arguments Ok {A} a.
Arguments Raise {A} e.

(** ** Python's [str] methods used by the digest

    Text is a list of characters.  The model covers ASCII text: a code
    above 127 is neither white space nor changed by [lower]. *)

Definition chars := list ascii.

Definition isspace (c : ascii) : bool :=
  let n := nat_of_ascii c in
  ((9 <=? n)%nat && (n <=? 13)%nat) || ((28 <=? n)%nat && (n <=? 32)%nat).

Definition lower_char (c : ascii) : ascii :=
  let n := nat_of_ascii c in
  if ((65 <=? n)%nat && (n <=? 90)%nat) then ascii_of_nat (n + 32) else c.

Definition lower (s : chars) : chars := map lower_char s.

Fixpoint dropwhile (p : ascii -> bool) (s : chars) : chars :=
  match s with
  | [] => []
  | c :: s' => if p c then dropwhile p s' else s
  end.

Definition lstrip (s : chars) : chars := dropwhile isspace s.
Definition rstrip (p : ascii -> bool) (s : chars) : chars :=
  rev (dropwhile p (rev s)).

(** [s.strip()] *)
Definition strip (s : chars) : chars := rstrip isspace (lstrip s).

Definition is_char (c : ascii) : ascii -> bool := fun x => bool_decide (x = c).

(** [s.startswith(pre)], [s.endswith(suf)] *)
Definition startswith (s pre : chars) : bool := bool_decide (pre `prefix_of` s).
Definition endswith (s suf : chars) : bool := bool_decide (suf `suffix_of` s).

(** [s.split(sep)] for a separator of one character: always at least one
    piece, empty pieces kept. *)
Fixpoint split (sep : ascii) (s : chars) : list chars :=
  match s with
  | [] => [[]]
  | c :: s' =>
      if bool_decide (c = sep) then [] :: split sep s'
      else match split sep s' with
           | p :: ps => (c :: p) :: ps
           | [] => [[c]]
           end
  end.

(** [l[-n:]] *)
Definition lastn {A} (n : nat) (l : list A) : list A :=
  drop (length l - n) l.

(** [l[-1]] of a list that [split] returned. *)
Definition last_piece (l : list chars) : chars := List.last l [].

Definition of_string (s : string) : chars := list_ascii_of_string s.
Definition to_string (s : chars) : string := string_of_list_ascii s.

(** The locators on which [isspace] and [lower_char] above are exactly
    Python's: those with ASCII characters only.  Outside ASCII [str.strip]
    removes more (U+0085, U+00A0, ...) and [str.lower] changes more; a
    statement that needs the two to be exact asks for [is_ascii]. *)
Definition is_ascii (s : string) : bool :=
  forallb (fun c => (nat_of_ascii c <? 128)%nat) (of_string s).

(** ** The key digest: [LRURepoPoolSafe._digest] *)

(** The locator after [strip], [lower], [rstrip("/")] and the removal of
    one trailing [.git]. *)
Definition normalize (git_url : string) : chars :=
  let u := lower (strip (of_string git_url)) in
  let u := rstrip (is_char "/") u in
  if endswith u (of_string ".git") then take (length u - 4) u else u.

(** The list each branch unpacks into [group, repo]. *)
Definition digest_parts (u : chars) : list chars :=
  if startswith u (of_string "https://")
  then lastn 2 (split "/" u)
  else split "/" (last_piece (split ":" u)).

(** [group, repo = ...] raises [ValueError] unless the list has exactly two
    elements. *)
Definition _digest (git_url : string) : outcome string :=
  match digest_parts (normalize git_url) with
  | [group; repo] => Ok (to_string (group ++ of_string "+" ++ repo))
  | _ => Raise ValueError
  end.

(** ** Dictionaries

    [trx.lrucache] is a Python [dict] from keys to counters.  [min] walks
    it in insertion order, so the model keeps that order: an association
    list, changed only through the operations below. *)

Definition dict := list (string * Z).

(** [key in d] *)
Definition dict_in (k : string) (d : dict) : bool := bool_decide (k ∈ d.*1).

(** [d[key]] *)
Fixpoint dict_get (k : string) (d : dict) : option Z :=
  match d with
  | [] => None
  | (k', v) :: d' => if bool_decide (k' = k) then Some v else dict_get k d'
  end.

(** [d[key] = v]: in place when the key is there, at the end otherwise. *)
Fixpoint dict_set (k : string) (v : Z) (d : dict) : dict :=
  match d with
  | [] => [(k, v)]
  | (k', v') :: d' =>
      if bool_decide (k' = k) then (k', v) :: d' else (k', v') :: dict_set k v d'
  end.

(** [del d[key]] *)
Fixpoint dict_del (k : string) (d : dict) : dict :=
  match d with
  | [] => []
  | (k', v') :: d' =>
      if bool_decide (k' = k) then dict_del k d' else (k', v') :: dict_del k d'
  end.

(** [d[key] += 1] for a key that is in [d]. *)
Definition dict_incr (k : string) (d : dict) : dict :=
  match dict_get k d with
  | Some v => dict_set k (v + 1) d
  | None => d
  end.

(** [min(d.items(), key=lambda x: x[1])]: the first item, in iteration
    order, whose counter no other item undercuts; [None] stands for the
    [ValueError] on an empty dictionary. *)
Fixpoint min_from (best : string * Z) (d : dict) : string * Z :=
  match d with
  | [] => best
  | x :: d' => min_from (if x.2 <? best.2 then x else best) d'
  end.

Definition min_item (d : dict) : option (string * Z) :=
  match d with
  | [] => None
  | x :: d' => Some (min_from x d')
  end.

(** ** The file system, the remote and the trace of calls *)

Inductive node : Type := Dir | File.

(** The JSON document of an index file, as [json.load] returns it: both
    fields are optional on disk ([obj.get] supplies the defaults), the
    [lrucache] object is a dictionary (no key twice, see [NoDup_dict_set]
    and its neighbours), and the [badcache] array is kept as the set it is
    loaded into. *)
Record Doc : Type := mkDoc {
  doc_lrucache : option dict;
  doc_badcache : option (gset string) }.

(** What an index file holds: a document, or text [json.load] rejects. *)
Inductive filedata : Type := Garbled | Json (d : Doc).

Inductive flock_op : Type := LOCK_SH | LOCK_EX | LOCK_UN.

(** The calls that reach the operating system or the remote. *)
Inductive event : Type :=
  | EvOpen (file mode : string)
  | EvFlock (file : string) (op : flock_op)
  | EvTempfile (name : string)
  | EvJsonDump (name : string) (lru : dict) (bad : gset string)
  | EvRename (src dst : string)
  | EvRmtree (path : string)
  | EvUnlink (path : string)
  | EvClone (url path : string).

(** The state the module works on.  [nodes] holds the directories and the
    plain files (lock files) by path; [docs] holds the index files by path.
    The two are kept apart: the index is [repo_pool.json] in the package
    directory, and no key path can name it, since every key contains a
    [+].  [tmpseq] counts the temporary files created so far. *)
Record World : Type := mkWorld {
  nodes : gmap string node;
  docs : gmap string filedata;
  tmpseq : nat;
  trace : list event }.

Definition M (A : Type) : Type := World -> outcome A * World.

Definition mret {A} (a : A) : M A := fun w => (Ok a, w).
Definition mraise {A} (e : exn) : M A := fun w => (Raise e, w).
Definition mbind {A B} (m : M A) (f : A -> M B) : M B :=
  fun w => match m w with
           | (Ok a, w') => f a w'
           | (Raise e, w') => (Raise e, w')
           end.
Definition lift {A} (r : outcome A) : M A := fun w => (r, w).

Notation "x <- m ;; k" := (mbind m (fun x => k))
  (at level 100, m at next level, right associativity).

Definition log (ev : list event) (w : World) : World :=
  mkWorld (nodes w) (docs w) (tmpseq w) (trace w ++ ev).

Definition set_nodes (n : gmap string node) (w : World) : World :=
  mkWorld n (docs w) (tmpseq w) (trace w).

(** [os.path.join(a, b)] *)
Definition os_path_join (a b : string) : string :=
  if startswith (of_string b) (of_string "/") then b
  else if bool_decide (a = "") || endswith (of_string a) (of_string "/")
       then a +:+ b
       else a +:+ "/" +:+ b.

(** [os.path.dirname(p)] *)
Definition os_path_dirname (p : string) : string :=
  let head := rev (dropwhile (fun c => negb (is_char "/" c)) (rev (of_string p))) in
  let stripped := rstrip (is_char "/") head in
  to_string (if bool_decide (stripped = []) then head else stripped).

(** [os.path.exists(path)] *)
Definition exists_ (path : string) (w : World) : bool :=
  bool_decide (is_Some (nodes w !! path)).

(** The paths [shutil.rmtree(path)] removes: [path] and all below it. *)
Definition is_under (path p : string) : bool :=
  bool_decide (p = path) || startswith (of_string p) (of_string (path +:+ "/")).

(** [shutil.rmtree(path)] *)
Definition rmtree (path : string) : M unit := fun w =>
  match nodes w !! path with
  | Some Dir =>
      (Ok tt,
       log [EvRmtree path]
         (set_nodes (filter (fun kv => is_under path kv.1 = false) (nodes w)) w))
  | Some File => (Raise NotADirectoryError, w)
  | None => (Raise FileNotFoundError, w)
  end.

(** [os.unlink(path)] *)
Definition unlink (path : string) : M unit := fun w =>
  match nodes w !! path with
  | Some File => (Ok tt, log [EvUnlink path] (set_nodes (delete path (nodes w)) w))
  | Some Dir => (Raise IsADirectoryError, w)
  | None => (Raise FileNotFoundError, w)
  end.

(** [open(file, "rb")] and [open(file, "wb")]; the result is the open
    file, named by its path. *)
Definition open_ (file mode : string) : M string := fun w =>
  match nodes w !! file with
  | Some Dir => (Raise IsADirectoryError, w)
  | Some File =>
      (Ok file, log [EvOpen file mode] w)
  | None =>
      if bool_decide (mode = "rb") then (Raise FileNotFoundError, w)
      else (Ok file, log [EvOpen file mode] (set_nodes (<[file := File]> (nodes w)) w))
  end.

(** A handle on a working directory: GitPython's [Repo]. *)
Record Repo : Type := mkRepo { working_dir : string }.

(** [Repo(path)] *)
Definition Repo_open (path : string) : M Repo := fun w =>
  match nodes w !! path with
  | Some Dir => (Ok (mkRepo path), w)
  | Some File => (Raise InvalidGitRepositoryError, w)
  | None => (Raise NoSuchPathError, w)
  end.

(** What the module takes from its surroundings: its own directory, the
    directory and the names [tempfile] hands out, and which locators the
    remote serves. *)
Record Env : Type := mkEnv {
  module_dir : string;
  gettempdir : string;
  tmpname : nat -> string;
  clone_ok : string -> bool }.

(** [Repo.clone_from(git_url, repo_path)] into a path that does not
    exist: a populated directory, or an error and nothing left behind. *)
Definition clone_from (E : Env) (git_url repo_path : string) : M Repo := fun w =>
  if clone_ok E git_url
  then (Ok (mkRepo repo_path),
        log [EvClone git_url repo_path]
          (set_nodes (<[repo_path := Dir]> (nodes w)) w))
  else (Raise GitCommandError, log [EvClone git_url repo_path] w).

Definition POOL_FILE (E : Env) : string := os_path_join (module_dir E) "repo_pool.json".
Definition REPOSITORY_BASE : string := "/data/repos".

(** ** [FileLock] *)

Record FileLock : Type := mkFileLock {
  file : string;
  mode : string }.

(** The instance attributes of a [FileLock] while [__init__] runs; a fresh
    instance has none, and the class defines no [mode] of its own. *)
Record FileLock_attrs : Type := mkAttrs {
  attr_file : option string;
  attr_mode : option string }.

Definition fresh_instance : FileLock_attrs := mkAttrs None None.

(** [self.mode] *)
Definition getattr_mode (self : FileLock_attrs) : outcome string :=
  match attr_mode self with
  | Some m => Ok m
  | None => Raise AttributeError
  end.

(** [FileLock(file, mode)]: [__init__] on a fresh instance.  The argument
    of [open] reads [self.mode]; the assignment to it comes after. *)
Definition FileLock__init__ (file mode : string) : M FileLock :=
  let self := fresh_instance in
  m <- lift (getattr_mode self) ;;
  f <- open_ file (if bool_decide (m = "r") then "rb" else "wb") ;;
  mret (mkFileLock f mode).

(** For comparison, the constructor with its two statements exchanged:
    [self.mode = mode] first, then the [open] that reads it. *)
Definition FileLock_mode_first (file mode : string) : M FileLock :=
  let self := mkAttrs None (Some mode) in
  m <- lift (getattr_mode self) ;;
  f <- open_ file (if bool_decide (m = "r") then "rb" else "wb") ;;
  mret (mkFileLock f mode).

(** [FileLock.__enter__] and [FileLock.__exit__] *)
Definition FileLock__enter__ (self : FileLock) : World -> World :=
  log [EvFlock (file self) (if bool_decide (mode self = "r") then LOCK_SH else LOCK_EX)].

Definition FileLock__exit__ (self : FileLock) : World -> World :=
  log [EvFlock (file self) LOCK_UN].

(** [with EXPR: body], where [EXPR] builds the lock: [__exit__] runs on
    every way out of the body. *)
Definition with_FileLock {A} (expr : M FileLock) (body : M A) : M A :=
  lk <- expr ;;
  fun w =>
    let '(r, w') := body (FileLock__enter__ lk w) in
    (r, FileLock__exit__ lk w').

(** ** [FileDB] and its transactions *)

Record Transaction : Type := mkTransaction {
  db_file : string;
  lock_file : FileLock;
  lrucache : dict;
  badcache : gset string }.

Definition set_lrucache (d : dict) (t : Transaction) : Transaction :=
  mkTransaction (db_file t) (lock_file t) d (badcache t).
Definition set_badcache (b : gset string) (t : Transaction) : Transaction :=
  mkTransaction (db_file t) (lock_file t) (lrucache t) b.

(** Code that runs inside [with ... as trx]: it changes the transaction's
    fields and the world, and the fields it leaves are what [__exit__]
    sees, also when it raises. *)
Definition TM (A : Type) : Type := Transaction -> World -> outcome A * Transaction * World.

Definition tret {A} (a : A) : TM A := fun t w => (Ok a, t, w).
Definition traise {A} (e : exn) : TM A := fun t w => (Raise e, t, w).
Definition tbind {A B} (m : TM A) (f : A -> TM B) : TM B := fun t w =>
  match m t w with
  | (Ok a, t', w') => f a t' w'
  | (Raise e, t', w') => (Raise e, t', w')
  end.
Definition tlift {A} (m : M A) : TM A := fun t w =>
  let '(r, w') := m w in (r, t, w').
Definition tget : TM Transaction := fun t w => (Ok t, t, w).
Definition tmodify (f : Transaction -> Transaction) : TM unit := fun t w => (Ok tt, f t, w).

Notation "x <~ m ;; k" := (tbind m (fun x => k))
  (at level 100, m at next level, right associativity).

(** [Transaction._load] *)
Definition _load (self : Transaction) : M Transaction := fun w =>
  match docs w !! db_file self with
  | Some (Json obj) =>
      (Ok (mkTransaction (db_file self) (lock_file self)
             (default [] (doc_lrucache obj)) (default ∅ (doc_badcache obj))), w)
  | Some Garbled => (Raise JSONDecodeError, w)
  | None => (Ok (mkTransaction (db_file self) (lock_file self) [] ∅), w)
  end.

Section Pool.

(** What the global name [FileLock] is bound to when the methods run: the
    module binds it to the class above, [FileLock__init__]. *)
Variable FileLock_new : string -> string -> M FileLock.
Variable E : Env.

(** [Transaction._dump]: the temporary file comes from
    [tempfile.NamedTemporaryFile("w", delete=False)], with no [dir].  The
    rename is taken to succeed: the directory [tempfile] uses and the
    directory of the index on one file system.  [Filesystems._dump] below
    is the same method without that assumption. *)
Definition _dump (self : Transaction) : World -> World := fun w =>
  let name := os_path_join (gettempdir E) (tmpname E (tmpseq w)) in
  mkWorld (nodes w)
    (<[db_file self := Json (mkDoc (Some (lrucache self)) (Some (badcache self)))]> (docs w))
    (S (tmpseq w))
    (trace w ++ [EvTempfile name; EvJsonDump name (lrucache self) (badcache self);
                 EvRename name (db_file self)]).

(** [Transaction.__init__]; the cache fields are set by [_load]. *)
Definition Transaction__init__ (db_file lock_file mode : string) : M Transaction :=
  lk <- FileLock_new lock_file mode ;;
  mret (mkTransaction db_file lk [] ∅).

Definition Transaction__enter__ (self : Transaction) : M Transaction := fun w =>
  _load self (FileLock__enter__ (lock_file self) w).

Definition Transaction__exit__ (self : Transaction) : World -> World := fun w =>
  FileLock__exit__ (lock_file self)
    (if bool_decide (mode (lock_file self) = "w") then _dump self w else w).

(** [with EXPR as trx: body], where [EXPR] builds the transaction:
    [__exit__] runs on every way out of the body, not when [__enter__]
    itself raises. *)
Definition with_Transaction {A} (expr : M Transaction) (body : TM A) : M A :=
  trx0 <- expr ;;
  fun w =>
    match Transaction__enter__ trx0 w with
    | (Raise e, w1) => (Raise e, w1)
    | (Ok trx, w1) =>
        let '(r, trx', w2) := body trx w1 in
        (r, Transaction__exit__ trx' w2)
    end.

Record FileDB : Type := mkFileDB {
  fdb_db_file : string;
  fdb_lock_file : string }.

Definition FileDB__init__ (db_file : string) : FileDB :=
  mkFileDB db_file (db_file +:+ ".lock").

Definition lock_read (self : FileDB) : M Transaction :=
  Transaction__init__ (fdb_db_file self) (fdb_lock_file self) "r".

Definition lock (self : FileDB) : M Transaction :=
  Transaction__init__ (fdb_db_file self) (fdb_lock_file self) "w".

(** ** [LRURepoPoolSafe] *)

Record LRURepoPoolSafe : Type := mkPool {
  repo_base : string;
  max_size : Z;
  file_db : FileDB }.

(** The loop of [__init__]: drop the keys whose directory is gone. *)
Definition validate (base : string) : TM unit := fun trx w =>
  (Ok tt,
   set_lrucache (List.filter (fun kv => exists_ (os_path_join base kv.1) w) (lrucache trx)) trx,
   w).

Definition LRURepoPoolSafe__init__ (base : string) (max_size : Z) : M LRURepoPoolSafe :=
  let self := mkPool base max_size (FileDB__init__ (POOL_FILE E)) in
  _ <- with_Transaction (lock (file_db self)) (validate base) ;;
  mret self.

Definition has (self : LRURepoPoolSafe) (git_url : string) : M bool :=
  key <- lift (_digest git_url) ;;
  with_Transaction (lock_read (file_db self))
    (trx <~ tget ;;
     tret (dict_in key (lrucache trx) || bool_decide (key ∈ badcache trx))).

(** [if b: m] *)
Definition when (b : bool) (m : M unit) : M unit := if b then m else mret tt.

(** The body of the transaction in [evict]. *)
Definition evict_body (key repo_path repo_lock : string) : TM unit :=
  trx <~ tget ;;
  if dict_in key (lrucache trx) then
    _ <~ tmodify (set_lrucache (dict_del key (lrucache trx))) ;;
    _ <~ tlift (fun w => when (exists_ repo_path w) (rmtree repo_path) w) ;;
    tlift (fun w => when (exists_ repo_lock w) (unlink repo_lock) w)
  else tret tt.

Definition evict (self : LRURepoPoolSafe) (git_url : string) : M unit :=
  key <- lift (_digest git_url) ;;
  let repo_path := os_path_join (repo_base self) key in
  let repo_lock := os_path_join (repo_base self) (key +:+ ".lock") in
  with_FileLock (FileLock_new repo_lock "w")
    (with_Transaction (lock (file_db self)) (evict_body key repo_path repo_lock)).

(** The first transaction of [get].  [Some r] is a [return r] from inside
    the [with]; [None] is control leaving the block at its end. *)
Definition get_lookup (self : LRURepoPoolSafe) (key repo_path : string)
  : TM (option (option Repo)) :=
  trx <~ tget ;;
  if dict_in key (lrucache trx) then
    _ <~ tmodify (set_lrucache (dict_incr key (lrucache trx))) ;;
    r <~ tlift (Repo_open repo_path) ;;
    tret (Some (Some r))
  else if bool_decide (key ∈ badcache trx) then tret (Some None)
  else if max_size self <=? Z.of_nat (length (lrucache trx)) then
    match min_item (lrucache trx) with
    | None => traise ValueError
    | Some least_used =>
        let least_key := least_used.1 in
        let least_path := os_path_join (repo_base self) least_key in
        let least_lock := os_path_join (repo_base self) (least_key +:+ ".lock") in
        _ <~ tlift (fun w => when (exists_ least_path w) (rmtree least_path) w) ;;
        _ <~ tlift (fun w => when (exists_ least_lock w) (unlink least_lock) w) ;;
        _ <~ tmodify (set_lrucache (dict_del least_key (lrucache trx))) ;;
        tret None
    end
  else tret None.

(** The transaction that looks the key up in the bad set again. *)
Definition get_recheck (key : string) : TM (option (option Repo)) :=
  trx <~ tget ;;
  if bool_decide (key ∈ badcache trx) then tret (Some None) else tret None.

(** The transaction after a failed clone. *)
Definition get_mark_bad (key : string) : TM unit :=
  trx <~ tget ;;
  tmodify (set_badcache ({[key]} ∪ badcache trx)).

(** The transaction after a clone that succeeded. *)
Definition get_record (key repo_path : string) : TM (option Repo) :=
  trx <~ tget ;;
  _ <~ (if negb (dict_in key (lrucache trx))
        then tmodify (set_lrucache (dict_set key 1 (lrucache trx)))
        else tmodify (set_lrucache (dict_incr key (lrucache trx)))) ;;
  r <~ tlift (Repo_open repo_path) ;;
  tret (Some r).

(** The block under the lock of the repository. *)
Definition get_locked (self : LRURepoPoolSafe) (git_url key repo_path : string)
  : M (option Repo) := fun w =>
  if exists_ repo_path w then
    (inst <- Repo_open repo_path ;; mret (Some inst)) w
  else
    (bad <- with_Transaction (lock (file_db self)) (get_recheck key) ;;
     match bad with
     | Some r => mret r
     | None => fun w =>
         match clone_from E git_url repo_path w with
         | (Raise e, w') =>
             (_ <- with_Transaction (lock (file_db self)) (get_mark_bad key) ;;
              mret None) w'
         | (Ok inst, w') =>
             with_Transaction (lock (file_db self)) (get_record key repo_path) w'
         end
     end) w.

Definition get (self : LRURepoPoolSafe) (git_url : string) : M (option Repo) :=
  key <- lift (_digest git_url) ;;
  let repo_path := os_path_join (repo_base self) key in
  let repo_lock := os_path_join (repo_base self) (key +:+ ".lock") in
  found <- with_Transaction (lock (file_db self)) (get_lookup self key repo_path) ;;
  match found with
  | Some r => mret r
  | None =>
      with_FileLock (FileLock_new repo_lock "w")
        (get_locked self git_url key repo_path)
  end.

(** The module's [pool] and its [get]. *)
Definition module_pool : M LRURepoPoolSafe :=
  LRURepoPoolSafe__init__ REPOSITORY_BASE 5000.

Definition module_get (pool : LRURepoPoolSafe) (git_url : string) : M Repo :=
  repo <- get pool git_url ;;
  match repo with
  | None => mraise (NoRepoError git_url)
  | Some r => mret r
  end.

End Pool.

(** ** The rename of [_dump], file systems told apart

    [_dump] above takes [os.rename] to succeed, which it does when the
    directory [tempfile] uses and the directory of the index are on one
    file system.  Here they need not be: [device] gives the file system a
    directory is on ([os.stat(dir).st_dev]), and the rename raises
    [OSError] (EXDEV) across file systems, as POSIX [rename] does. *)
Module Filesystems.
Section Rename.
Variable device : string -> nat.
Variable E : Env.

(** [os.rename(src, dst)], where [src] holds [content]. *)
Definition os_rename (src dst : string) (content : filedata) : M unit := fun w =>
  if bool_decide (device (os_path_dirname src) = device (os_path_dirname dst))
  then (Ok tt,
        mkWorld (nodes w) (<[dst := content]> (docs w)) (tmpseq w)
          (trace w ++ [EvRename src dst]))
  else (Raise OSError, log [EvRename src dst] w).

(** [Transaction._dump]: the temporary file is made and written, then
    renamed; it stays behind ([delete=False]) when the rename raises. *)
Definition _dump (self : Transaction) : M unit := fun w =>
  let name := os_path_join (gettempdir E) (tmpname E (tmpseq w)) in
  os_rename name (db_file self)
    (Json (mkDoc (Some (lrucache self)) (Some (badcache self))))
    (mkWorld (nodes w) (docs w) (S (tmpseq w))
       (trace w ++ [EvTempfile name; EvJsonDump name (lrucache self) (badcache self)])).

(** [Transaction.__exit__]: when [_dump] raises, the lock's [__exit__] is
    not reached. *)
Definition Transaction__exit__ (self : Transaction) : M unit := fun w =>
  if bool_decide (mode (lock_file self) = "w") then
    match _dump self w with
    | (Ok _, w1) => (Ok tt, FileLock__exit__ (lock_file self) w1)
    | (Raise e, w1) => (Raise e, w1)
    end
  else (Ok tt, FileLock__exit__ (lock_file self) w).

(** [with EXPR as trx: body]: an exception out of [__exit__] takes the
    place of the body's result. *)
Definition with_Transaction {A} (expr : M Transaction) (body : TM A) : M A :=
  trx0 <- expr ;;
  fun w =>
    match Transaction__enter__ trx0 w with
    | (Raise e, w1) => (Raise e, w1)
    | (Ok trx, w1) =>
        let '(r, trx', w2) := body trx w1 in
        match Transaction__exit__ trx' w2 with
        | (Ok _, w3) => (r, w3)
        | (Raise e, w3) => (Raise e, w3)
        end
    end.

End Rename.
End Filesystems.

(** * What the statements are about *)

(** ** The index as a transaction sees it *)

(** The usage map and the bad set a transaction on [db] would load. *)
Definition usage_of (db : string) (w : World) : dict :=
  match docs w !! db with
  | Some (Json obj) => default [] (doc_lrucache obj)
  | _ => []
  end.

Definition bad_of (db : string) (w : World) : gset string :=
  match docs w !! db with
  | Some (Json obj) => default ∅ (doc_badcache obj)
  | _ => ∅
  end.

(** The transaction a [_load] of [db] leaves. *)
Definition loaded (db : string) (lk : FileLock) (w : World) : Transaction :=
  mkTransaction db lk (usage_of db w) (bad_of db w).

Definition index_of (self : LRURepoPoolSafe) : string := fdb_db_file (file_db self).

(** The number of keys in the usage map of the pool's index. *)
Definition usage_count (self : LRURepoPoolSafe) (w : World) : Z :=
  Z.of_nat (length (usage_of (index_of self) w)).

Definition within_capacity (self : LRURepoPoolSafe) (w : World) : Prop :=
  usage_count self w <= max_size self.

(** ** Traces *)

(** The calls of the fetcher in a trace. *)
Definition fetches (evs : list event) : list (string * string) :=
  omap (fun ev => match ev with EvClone u p => Some (u, p) | _ => None end) evs.

(** The calls [_dump] makes for a transaction [t] in state [w]. *)
Definition dump_events (E : Env) (t : Transaction) (w : World) : list event :=
  let name := os_path_join (gettempdir E) (tmpname E (tmpseq w)) in
  [EvTempfile name; EvJsonDump name (lrucache t) (badcache t); EvRename name (db_file t)].

(** A step that leaves the index files alone and calls no fetcher. *)
Definition quiet (w w' : World) : Prop :=
  docs w' = docs w /\ fetches (trace w') = fetches (trace w).

(** Nothing that existed is gone. *)
Definition kept (w w' : World) : Prop :=
  forall p n, nodes w !! p = Some n -> nodes w' !! p = Some n.

(** ** The class bound to [FileLock] *)

(** What the methods need of the class bound to [FileLock]: building a lock
    either raises and changes nothing, or opens the file in the mode that
    goes with [mode] and returns the lock on it. *)
Definition lock_class_ok (F : string -> string -> M FileLock) : Prop :=
  forall file mode w,
    (exists e, F file mode w = (Raise e, w))
    \/ (exists w', open_ file (if bool_decide (mode = "r") then "rb" else "wb") w = (Ok file, w')
                 /\ F file mode w = (Ok (mkFileLock file mode), w')).

(** A class that builds a lock on every plain file that exists. *)
Definition builds_on_files (F : string -> string -> M FileLock) : Prop :=
  forall file mode w, nodes w !! file = Some File ->
    exists w', F file mode w = (Ok (mkFileLock file mode), w').

(** What the body of a transaction does, as the transaction wrapper needs
    it: it is quiet, keeps the transaction's file and lock, and relates
    the fields it found to the fields it leaves by [Q]. *)
Definition body_ok {A} (body : TM A)
  (Q : outcome A -> Transaction -> Transaction -> Prop) : Prop :=
  forall t w r t' w2, body t w = (r, t', w2) ->
    quiet w w2 /\ db_file t' = db_file t /\ lock_file t' = lock_file t /\ Q r t t'.

(** What an operation does when the locator has a key but the first lock
    it builds cannot be built. *)
Definition after_digest {A} (git_url : string) (w : World) : outcome A * World :=
  match _digest git_url with
  | Ok _ => (Raise AttributeError, w)
  | Raise e => (Raise e, w)
  end.

(** ** Requests *)

(** A request to the pool. *)
Inductive request : Type := Get (git_url : string) | Evict (git_url : string).

Definition serve F E self (q : request) : M unit :=
  match q with
  | Get git_url => _ <- get F E self git_url ;; mret tt
  | Evict git_url => evict F E self git_url
  end.

Definition completed {A} (r : outcome A) : bool :=
  match r with Ok _ => true | Raise _ => false end.

(** The states a sequence of requests goes through, one per request. *)
Fixpoint states F E self (qs : list request) (w : World) : list World :=
  match qs with
  | [] => []
  | q :: qs' => let w' := (serve F E self q w).2 in w' :: states F E self qs' w'
  end.

(** Whether every request of the sequence returned. *)
Fixpoint all_completed F E self (qs : list request) (w : World) : bool :=
  match qs with
  | [] => true
  | q :: qs' =>
      let '(r, w') := serve F E self q w in
      completed r && all_completed F E self qs' w'
  end.

(** [n] callers, one after the other, each with its own call. *)
Fixpoint callers {A} (n : nat) (m : M A) (w : World) : list (outcome A) * World :=
  match n with
  | O => ([], w)
  | S n' => let '(r, w') := m w in
            let '(rs, w'') := callers n' m w' in
            (r :: rs, w'')
  end.

(** ** Locators *)

(** The design document's notion of the path segments of a locator,
    written from its words and not from the code: leave out the scheme and
    the host, that is, what comes before the first slash after [https://],
    or before the first colon of an SSH-style address; cut the rest at the
    slashes; a segment is a piece that is not empty. *)
Fixpoint after_first (c : ascii) (s : chars) : option chars :=
  match s with
  | [] => None
  | x :: s' => if bool_decide (x = c) then Some s' else after_first c s'
  end.

Definition spec_path (u : chars) : chars :=
  if startswith u (of_string "https://")
  then default [] (after_first "/" (drop 8 u))
  else default [] (after_first ":" u).

Definition spec_path_segments (git_url : string) : list chars :=
  List.filter (fun p => negb (bool_decide (p = [])))
    (split "/" (spec_path (of_string git_url))).

(** The text after the last [c] of [s]; all of [s] when it holds no [c]. *)
Fixpoint after_last (c : ascii) (s : chars) : chars :=
  match s with
  | [] => []
  | x :: s' =>
      if bool_decide (c ∈ s') then after_last c s'
      else if bool_decide (x = c) then s' else x :: s'
  end.

(** How often [c] occurs in [s]. *)
Definition count_char (c : ascii) (s : chars) : nat := length (List.filter (is_char c) s).

(** The characters of a host, group or repository name: ASCII, and no
    white space, slash or colon. *)
Definition name_char (c : ascii) : bool :=
  (nat_of_ascii c <? 128)%nat
  && negb (isspace c) && negb (is_char "/" c) && negb (is_char ":" c).

Definition name (s : chars) : Prop := Forall (fun c => name_char c = true) s.

(** A host, group or repository name: ASCII text with no white space,
    slash or colon. *)
Definition is_name (s : string) : bool := forallb name_char (of_string s).

(** The [https://] address of a repository, with [suffix] empty or [.git]. *)
Definition https_url (host group repo suffix : string) : string :=
  "https://" +:+ host +:+ "/" +:+ group +:+ "/" +:+ repo +:+ suffix.

(** The SSH-style address of a repository. *)
Definition scp_address (host group repo suffix : string) : string :=
  host +:+ ":" +:+ group +:+ "/" +:+ repo +:+ suffix.

Definition lower_string (s : string) : string := to_string (lower (of_string s)).

(** The spellings of the address of one repository; the design document
    names the first and the last. *)
Inductive address_form : Type := HttpsUrl | HttpUrl | SshUrl | ScpAddress.

Definition address (f : address_form) (host group repo : string) : string :=
  match f with
  | HttpsUrl => https_url host group repo ".git"
  | HttpUrl => "http://" +:+ host +:+ "/" +:+ group +:+ "/" +:+ repo +:+ ".git"
  | SshUrl => "ssh://git@" +:+ host +:+ "/" +:+ group +:+ "/" +:+ repo +:+ ".git"
  | ScpAddress => scp_address host group repo ""
  end.

(** ** Sample surroundings, pool and states *)

(** A package in [/srv/app/repo_manager], temporary files in [/tmp], and a
    remote that serves every locator but [host:bad/repo]; an empty state; a
    pool for two repositories. *)
Definition E0 : Env :=
  mkEnv "/srv/app/repo_manager" "/tmp"
    (fun n => "tmp" +:+ String (ascii_of_nat (97 + n)) "")
    (fun u => negb (bool_decide (u = "host:bad/repo"))).
Definition w0 : World := mkWorld ∅ ∅ 0 [].
Definition P2 : LRURepoPoolSafe := mkPool "/data/repos" 2 (FileDB__init__ (POOL_FILE E0)).

(** An index that holds one repository. *)
Definition idx0 : Doc := mkDoc (Some [("g+a", 1)]) (Some ∅).
Definition w_idx : World := mkWorld ∅ {[POOL_FILE E0 := Json idx0]} 0 [].

(** An index whose bad set holds one key and whose usage map is empty. *)
Definition w_bad : World :=
  mkWorld ∅ {[POOL_FILE E0 := Json (mkDoc (Some []) (Some {["bad+repo"]}))]} 0 [].

(** The state in which the directory of [g+a] is on disk and indexed. *)
Definition w_cached : World :=
  mkWorld {["/data/repos/g+a" := Dir]}
          {[POOL_FILE E0 := Json (mkDoc (Some [("g+a", 1)]) (Some ∅))]} 0 [].

(** Temporary files on a file system of their own, as with a [/tmp] that
    is a tmpfs. *)
Definition device0 (dir : string) : nat := if bool_decide (dir = "/tmp") then 1%nat else 0%nat.

(** The lock of the index, as a write transaction holds it. *)
Definition index_lock0 : FileLock := mkFileLock (POOL_FILE E0 +:+ ".lock") "w".

(** ** For the further properties *)

(** Whether every character of [s] satisfies [p]. *)
Definition all_chars (p : ascii -> bool) (s : string) : bool := forallb p (of_string s).

(** The state after [open(file, "wb")] on a path that is no directory. *)
Definition opened (file : string) (w : World) : World :=
  log [EvOpen file "wb"] (set_nodes (<[file := File]> (nodes w)) w).

(** A class that builds a lock for writing on every path that is not a
    directory. *)
Definition builds_write_locks (F : string -> string -> M FileLock) : Prop :=
  forall file w, nodes w !! file <> Some Dir ->
    exists w', F file "w" w = (Ok (mkFileLock file "w"), w').

(** A pool without room. *)
Definition P0 : LRURepoPoolSafe := mkPool "/data/repos" 0 (FileDB__init__ (POOL_FILE E0)).

(** A transaction whose usage map has two items with the least counter. *)
Definition t_tie : Transaction :=
  mkTransaction (POOL_FILE E0) index_lock0 [("g+a", 2); ("g+b", 1); ("g+c", 1)] ∅.

(** [w_bad] after a write transaction has left the lock file of the index. *)
Definition w_bad_locked : World :=
  snd (evict FileLock_mode_first E0 P2 "host:bad/repo" w_bad).

(** An index that records a directory which is gone. *)
Definition w_stale : World :=
  mkWorld {["/data/repos/g+a" := Dir]}
          {[POOL_FILE E0 := Json (mkDoc (Some [("g+gone", 3); ("g+a", 1)]) (Some {["bad+repo"]}))]}
          0 [].

(** An index file that [json.load] rejects. *)
Definition w_garbled : World := mkWorld ∅ {[POOL_FILE E0 := Garbled]} 0 [].

(** * Properties *)

(** ** Examples of the digest and of paths *)

Example digest_https : _digest "https://host/group/repo.git" = Ok "group+repo".
Proof. reflexivity. Qed.
Example digest_scp : _digest "host:group/repo" = Ok "group+repo".
Proof. reflexivity. Qed.
Example digest_scp_git : _digest " git@GitHub.com:Group/Repo.git/ " = Ok "group+repo".
Proof. reflexivity. Qed.
Example digest_https_host_only : _digest "https://host" = Ok "+host".
Proof. reflexivity. Qed.
Example digest_https_one : _digest "https://host/repo" = Ok "host+repo".
Proof. reflexivity. Qed.
Example digest_scp_one : _digest "host:repo" = Raise ValueError.
Proof. reflexivity. Qed.
Example digest_http : _digest "http://host/group/repo" = Raise ValueError.
Proof. reflexivity. Qed.
Example digest_ssh : _digest "ssh://git@host/group/repo.git" = Raise ValueError.
Proof. reflexivity. Qed.
Example digest_git_git : _digest "https://h/g/x.git.git" = Ok "g+x.git".
Proof. reflexivity. Qed.

Example join_base : os_path_join REPOSITORY_BASE "group+repo" = "/data/repos/group+repo".
Proof. reflexivity. Qed.
Example dirname_pool : os_path_dirname "/srv/app/repo_manager/repo_pool.json" = "/srv/app/repo_manager".
Proof. reflexivity. Qed.
Example dirname_root : os_path_dirname "/tmpx" = "/".
Proof. reflexivity. Qed.

Example segments_https :
  spec_path_segments "https://host/group/repo" = [of_string "group"; of_string "repo"].
Proof. reflexivity. Qed.
Example segments_scp :
  spec_path_segments "host:group/repo" = [of_string "group"; of_string "repo"].
Proof. reflexivity. Qed.

(** ** The lock constructor *)

Lemma FileLock__init___raises file mode w :
  FileLock__init__ file mode w = (Raise AttributeError, w).
Proof. reflexivity. Qed.

Lemma Transaction__init___raises db_file lock_file mode w :
  Transaction__init__ FileLock__init__ db_file lock_file mode w = (Raise AttributeError, w).
Proof. reflexivity. Qed.

(** As the module stands, [get] raises right after the digest. *)
Lemma get_as_written E self git_url w :
  get FileLock__init__ E self git_url w = after_digest git_url w.
Proof.
  unfold get, after_digest, with_Transaction, mbind, lift.
  destruct (_digest git_url); reflexivity.
Qed.

(** C1. Building a [FileLock] always raises [AttributeError]: [__init__]
    reads [self.mode] before it is assigned.  So does building a
    transaction, and so do the pool constructor (the module's own [pool]
    with it) and, for every locator that has a key, [has], [get] and
    [evict]; the state is the one before the call, so no file was opened
    and no lock taken. *)
Theorem FileLock_cannot_be_built :
  (forall file mode w, FileLock__init__ file mode w = (Raise AttributeError, w))
  /\ (forall db_file lock_file mode w,
        Transaction__init__ FileLock__init__ db_file lock_file mode w
        = (Raise AttributeError, w))
  /\ (forall E base max_size w,
        LRURepoPoolSafe__init__ FileLock__init__ E base max_size w
        = (Raise AttributeError, w))
  /\ (forall E w, module_pool FileLock__init__ E w = (Raise AttributeError, w))
  /\ (forall E self git_url w,
        has FileLock__init__ E self git_url w = after_digest git_url w)
  /\ (forall E self git_url w,
        get FileLock__init__ E self git_url w = after_digest git_url w)
  /\ (forall E self git_url w,
        evict FileLock__init__ E self git_url w = after_digest git_url w).
Proof.
  repeat split; intros; try reflexivity;
    unfold has, get, evict, after_digest, with_Transaction, with_FileLock, mbind, lift;
    destruct (_digest git_url); reflexivity.
Qed.

(** The module's class meets [lock_class_ok]: it always raises. *)
Lemma FileLock__init___ok : lock_class_ok FileLock__init__.
Proof. intros file mode w. left. by exists AttributeError. Qed.

Lemma FileLock_mode_first_ok : lock_class_ok FileLock_mode_first.
Proof.
  intros file mode w. unfold FileLock_mode_first, mbind, lift, mret. simpl.
  destruct (open_ file _ w) as [[f|e] w'] eqn:Ho.
  - right. exists w'. unfold open_ in *. repeat case_match; simplify_eq; done.
  - left. exists e. unfold open_ in *. repeat case_match; simplify_eq; done.
Qed.

Lemma FileLock_mode_first_builds : builds_on_files FileLock_mode_first.
Proof.
  intros file mode w Hf. unfold FileLock_mode_first, mbind, lift, mret, open_. simpl.
  rewrite Hf. eauto.
Qed.

(** ** The key digest *)

Lemma split_cons sep s : exists p ps, split sep s = p :: ps.
Proof.
  induction s as [|c s [p [ps IH]]]; simpl; [by eauto|].
  case_bool_decide; rewrite ?IH; eauto.
Qed.

Lemma split_no_sep sep s : sep ∉ s -> split sep s = [s].
Proof.
  induction s as [|c s IH]; intros Hs; simpl; [done|].
  apply not_elem_of_cons in Hs as [Hc Hs].
  rewrite bool_decide_false by congruence. by rewrite IH.
Qed.

Lemma split_app_sep sep a b :
  sep ∉ b -> split sep (a ++ sep :: b) = split sep a ++ [b].
Proof.
  intros Hb. induction a as [|c a IH]; simpl.
  - rewrite bool_decide_true by done. by rewrite split_no_sep.
  - case_bool_decide; rewrite IH; [done|].
    destruct (split_cons sep a) as [p [ps ->]]. done.
Qed.

Lemma length_lastn {A} n (l : list A) : (n <= length l)%nat -> length (lastn n l) = n.
Proof. intros H. unfold lastn. rewrite length_drop. lia. Qed.

(** After [https://] the split on [/] has at least three pieces, so the
    slice [[-2:]] always has two. *)
Lemma https_parts u :
  startswith u (of_string "https://") = true ->
  exists group repo, lastn 2 (split "/" u) = [group; repo].
Proof.
  unfold startswith. intros H. apply bool_decide_eq_true in H as [t ->].
  assert (Hlen : (3 <= length (split "/" (of_string "https://" ++ t)))%nat).
  { simpl. destruct (split_cons "/" t) as [p [ps ->]]. simpl. lia. }
  pose proof (length_lastn 2 (split "/" (of_string "https://" ++ t))) as Hl.
  destruct (lastn 2 (split "/" (of_string "https://" ++ t))) as [|x [|y [|z l]]];
    simpl in Hl; try lia; eauto.
Qed.

Lemma digest_https_never_fails git_url :
  startswith (normalize git_url) (of_string "https://") = true ->
  exists key, _digest git_url = Ok key.
Proof.
  intros H. unfold _digest, digest_parts. rewrite H.
  destruct (https_parts _ H) as [g [r ->]]. eauto.
Qed.

Lemma digest_only_ValueError git_url e : _digest git_url = Raise e -> e = ValueError.
Proof.
  unfold _digest. repeat case_match; congruence.
Qed.

(** When the digest fails: never on an [https://] address, and otherwise
    when the text after the last colon is not two pieces. *)
Lemma digest_fails_iff git_url :
  _digest git_url = Raise ValueError
  <-> startswith (normalize git_url) (of_string "https://") = false
      /\ length (split "/" (last_piece (split ":" (normalize git_url)))) <> 2%nat.
Proof.
  split.
  - intros Hr. destruct (startswith (normalize git_url) (of_string "https://")) eqn:Hs.
    + destruct (digest_https_never_fails _ Hs) as [key Hk]. congruence.
    + split; [done|]. unfold _digest, digest_parts in Hr. rewrite Hs in Hr.
      destruct (split "/" (last_piece (split ":" (normalize git_url)))) as [|x [|y [|z l]]];
        simpl; try lia. discriminate.
  - intros [Hs Hlen]. unfold _digest, digest_parts. rewrite Hs.
    destruct (split "/" (last_piece (split ":" (normalize git_url)))) as [|x [|y [|z l]]];
      simpl in Hlen; try reflexivity. lia.
Qed.

(** *** When the digest fails *)

(** [split] cuts at every separator: one piece more than separators. *)
Lemma length_split sep s : length (split sep s) = S (count_char sep s).
Proof.
  unfold count_char. induction s as [|c s IH]; simpl; [done|]. unfold is_char at 1.
  case_bool_decide; simpl; [by rewrite IH|].
  destruct (split_cons sep s) as [p [ps Hs]]. rewrite Hs in *. simpl in *. lia.
Qed.

Lemma count_char_absent c s : c ∉ s -> count_char c s = 0%nat.
Proof.
  unfold count_char. induction s as [|x s IH]; simpl; [done|].
  intros [Hx Hs]%not_elem_of_cons. unfold is_char at 1.
  rewrite bool_decide_false by congruence. auto.
Qed.

Lemma count_char_present c s : c ∈ s -> (0 < count_char c s)%nat.
Proof.
  unfold count_char. induction s as [|x s IH]; simpl; [by intros ?%elem_of_nil|].
  intros [->|Hs]%elem_of_cons; unfold is_char at 1.
  - rewrite bool_decide_true by done. simpl. lia.
  - case_bool_decide; simpl; [lia|auto].
Qed.

Lemma after_last_absent c s : c ∉ s -> after_last c s = s.
Proof.
  destruct s as [|x s]; simpl; [done|].
  intros [Hx Hs]%not_elem_of_cons.
  rewrite (bool_decide_false (c ∈ s)) by done.
  rewrite (bool_decide_false (x = c)); [done|congruence].
Qed.

(** The last piece of a split is the text after the last separator. *)
Lemma last_piece_split c s : last_piece (split c s) = after_last c s.
Proof.
  unfold last_piece. induction s as [|x s IH]; simpl; [done|].
  destruct (decide (c ∈ s)) as [Hin|Hnot].
  - rewrite (bool_decide_true (c ∈ s)) by done.
    pose proof (length_split c s) as Hlen. pose proof (count_char_present _ _ Hin) as Hpos.
    destruct (split c s) as [|p [|q qs]] eqn:Hs; simpl in Hlen; try lia.
    case_bool_decide; simpl in *; exact IH.
  - rewrite (bool_decide_false (c ∈ s)) by done.
    rewrite (split_no_sep _ _ Hnot). case_bool_decide; done.
Qed.




Example digest_three_segments : _digest "host:a/b/c" = Raise ValueError.
Proof. reflexivity. Qed.

(** *** One repository under two spellings *)

Lemma lower_char_name c : name_char c = true -> name_char (lower_char c) = true.
Proof. destruct c as [[] [] [] [] [] [] [] []]; vm_compute; congruence. Qed.

Lemma name_char_inv c : name_char c = true -> isspace c = false /\ c <> "/"%char /\ c <> ":"%char.
Proof.
  unfold name_char, is_char. intros H.
  repeat (apply andb_prop in H as [H ?]).
  repeat match goal with H : negb _ = true |- _ => apply negb_true_iff in H end.
  repeat match goal with H : bool_decide _ = false |- _ => apply bool_decide_eq_false in H end.
  done.
Qed.

Lemma lower_name s : name s -> name (lower s).
Proof.
  unfold name, lower. intros H. induction H; simpl; constructor; auto using lower_char_name.
Qed.

Lemma name_no_char s c : name_char c = false -> name s -> c ∉ s.
Proof.
  intros Hc Hs Hin. unfold name in Hs. rewrite Forall_forall in Hs.
  apply Hs in Hin. congruence.
Qed.

Lemma of_string_app a b : of_string (a +:+ b) = of_string a ++ of_string b.
Proof. induction a as [|c a IH]; simpl; [done|]. unfold of_string in *. by rewrite IH. Qed.

Lemma lstrip_cons c s : isspace c = false -> lstrip (c :: s) = c :: s.
Proof. intros H. unfold lstrip. simpl. by rewrite H. Qed.

Lemma rstrip_snoc p s c : p c = false -> rstrip p (s ++ [c]) = s ++ [c].
Proof.
  intros H. unfold rstrip. rewrite rev_app_distr. simpl. rewrite H.
  change (c :: rev s) with (rev [c] ++ rev s)%list. by rewrite <- rev_app_distr, rev_involutive.
Qed.

Lemma suffix_past_sep (S Q T : chars) sep :
  sep ∉ S -> S `suffix_of` (Q ++ sep :: T) -> S `suffix_of` T.
Proof.
  intros HS. destruct S as [|x S]; [intros; apply suffix_nil|].
  induction Q as [|q Q IH]; simpl; intros H.
  - apply suffix_cons_inv in H as [H|H]; [|done]. rewrite H in HS. set_solver.
  - apply suffix_cons_inv in H as [H|H]; [|auto]. rewrite H in HS. set_solver.
Qed.

Lemma lower_app a b : lower (a ++ b) = lower a ++ lower b.
Proof. apply map_app. Qed.

Lemma strip_id c0 s c :
  isspace c0 = false -> isspace c = false -> strip (c0 :: s ++ [c]) = c0 :: s ++ [c].
Proof.
  intros H0 H1. unfold strip. rewrite lstrip_cons by done.
  by rewrite app_comm_cons, rstrip_snoc.
Qed.

(** The normal form of a locator that neither starts nor ends with white
    space, does not end with a slash and has no [.git] at its end. *)
Lemma normalize_plain c0 s c :
  isspace c0 = false -> isspace c = false -> lower_char c <> "/"%char ->
  endswith (lower (c0 :: s ++ [c])) (of_string ".git") = false ->
  normalize (to_string (c0 :: s ++ [c])) = lower (c0 :: s ++ [c]).
Proof.
  intros H0 H1 H2 H3. unfold normalize, of_string, to_string.
  rewrite list_ascii_of_string_of_list_ascii, strip_id by done.
  rewrite app_comm_cons, lower_app in *.
  change (lower [c]) with [lower_char c] in *.
  rewrite rstrip_snoc by (unfold is_char; by apply bool_decide_eq_false).
  unfold of_string in H3. by rewrite H3.
Qed.

(** The normal form of the same locator with [.git] appended. *)
Lemma normalize_git c0 s :
  isspace c0 = false ->
  normalize (to_string ((c0 :: s) ++ of_string ".git")) = lower (c0 :: s).
Proof.
  intros H0. unfold normalize, to_string.
  rewrite list_ascii_of_string_of_list_ascii.
  assert (Hsame : strip ((c0 :: s) ++ of_string ".git") = (c0 :: s) ++ of_string ".git").
  { replace ((c0 :: s) ++ of_string ".git")
      with (c0 :: (s ++ of_string ".gi") ++ ["t"%char]).
    - by apply strip_id.
    - rewrite <- app_assoc. done. }
  rewrite Hsame, lower_app.
  change (lower (of_string ".git")) with (of_string ".gi" ++ ["t"%char]).
  rewrite app_assoc, rstrip_snoc by done.
  rewrite <- app_assoc.
  change (of_string ".gi" ++ ["t"%char]) with (of_string ".git").
  unfold endswith. rewrite bool_decide_true by (by apply suffix_app_r).
  rewrite length_app. change (length (of_string ".git")) with 4%nat.
  replace (length (lower (c0 :: s)) + 4 - 4)%nat with (length (lower (c0 :: s))) by lia.
  by rewrite take_app_length.
Qed.

Lemma not_endswith_git Q r :
  endswith (lower r) (of_string ".git") = false ->
  endswith (Q ++ "/"%char :: lower r) (of_string ".git") = false.
Proof.
  unfold endswith. intros H. apply bool_decide_eq_false in H.
  apply bool_decide_eq_false. intros He. apply H.
  apply suffix_past_sep in He; [done|].
  intros Hin%list_elem_of_In. simpl in Hin. intuition discriminate.
Qed.

Lemma lastn_app {A} (a b : list A) : lastn (length b) (a ++ b) = b.
Proof.
  unfold lastn. rewrite length_app.
  replace (length a + length b - length b)%nat with (length a) by lia.
  by rewrite drop_app_length.
Qed.

Lemma last_piece_snoc l p : last_piece (l ++ [p]) = p.
Proof. unfold last_piece. apply last_last. Qed.

(** The parts of a normal form [https://host/group/repo]. *)
Lemma digest_parts_https (h g r : chars) :
  "/"%char ∉ g -> "/"%char ∉ r ->
  digest_parts (of_string "https://" ++ h ++ "/"%char :: g ++ "/"%char :: r) = [g; r].
Proof.
  intros Hg Hr. unfold digest_parts, startswith.
  rewrite bool_decide_true by (by apply prefix_app_r).
  replace (of_string "https://" ++ h ++ "/"%char :: g ++ "/"%char :: r)
    with (((of_string "https://" ++ h) ++ "/"%char :: g) ++ "/"%char :: r)
    by (by rewrite <- !app_assoc).
  rewrite !split_app_sep by done. rewrite <- app_assoc.
  apply (lastn_app _ [g; r]).
Qed.

Lemma only_slash (a r : chars) i :
  "/"%char ∉ a -> "/"%char ∉ r -> (a ++ "/"%char :: r) !! i = Some "/"%char -> i = length a.
Proof.
  intros Ha Hr Hi. destruct (decide (i < length a)%nat) as [Hlt|Hge].
  - rewrite lookup_app_l in Hi by done. apply list_elem_of_lookup_2 in Hi. done.
  - rewrite lookup_app_r in Hi by lia.
    destruct (i - length a)%nat as [|j] eqn:Hj; [lia|].
    simpl in Hi. apply list_elem_of_lookup_2 in Hi. done.
Qed.

(** The parts of a normal form [host:group/repo]. *)
Lemma digest_parts_scp (h g r : chars) :
  "/"%char ∉ h -> "/"%char ∉ g -> "/"%char ∉ r -> ":"%char ∉ g -> ":"%char ∉ r ->
  digest_parts (h ++ ":"%char :: g ++ "/"%char :: r) = [g; r].
Proof.
  intros Hh Hg Hr Hg' Hr'. unfold digest_parts, startswith.
  rewrite bool_decide_false.
  - rewrite split_app_sep, last_piece_snoc.
    + by rewrite split_app_sep, split_no_sep.
    + rewrite elem_of_app, elem_of_cons. intros [?|[?|?]]; done.
  - intros [k Hk].
    assert (Ha : "/"%char ∉ h ++ ":"%char :: g).
    { rewrite elem_of_app, elem_of_cons. intros [?|[?|?]]; done. }
    replace (h ++ ":"%char :: g ++ "/"%char :: r)
      with ((h ++ ":"%char :: g) ++ "/"%char :: r) in Hk
      by (by rewrite <- app_assoc).
    pose proof (only_slash _ _ 6 Ha Hr) as H6.
    pose proof (only_slash _ _ 7 Ha Hr) as H7.
    rewrite Hk in H6, H7. specialize (H6 eq_refl). specialize (H7 eq_refl). lia.
Qed.

Lemma lower_cons c s : lower (c :: s) = lower_char c :: lower s.
Proof. done. Qed.

Lemma normalize_body c0 P r suffix :
  isspace c0 = false -> name r -> r <> [] ->
  endswith (lower r) (of_string ".git") = false ->
  suffix = [] \/ suffix = of_string ".git" ->
  normalize (to_string (((c0 :: P) ++ "/"%char :: r) ++ suffix))
  = lower ((c0 :: P) ++ "/"%char :: r).
Proof.
  intros H0 Hr Hne Hgit [->| ->].
  - rewrite app_nil_r.
    destruct (exists_last Hne) as [r' [c ->]].
    assert (Hc : name_char c = true).
    { unfold name in Hr. rewrite Forall_app, Forall_singleton in Hr. tauto. }
    pose proof (name_char_inv _ Hc) as [Hsp _].
    pose proof (name_char_inv _ (lower_char_name _ Hc)) as [_ [Hsl _]].
    replace ((c0 :: P) ++ "/"%char :: r' ++ [c])
      with (c0 :: (P ++ "/"%char :: r') ++ [c])
      by (simpl; by rewrite <- app_assoc).
    apply normalize_plain; try done.
    replace (c0 :: (P ++ "/"%char :: r') ++ [c])
      with ((c0 :: P) ++ "/"%char :: r' ++ [c])
      by (simpl; by rewrite <- app_assoc).
    rewrite lower_app, lower_cons. by apply not_endswith_git.
  - rewrite <- app_comm_cons. by apply normalize_git.
Qed.

Lemma is_name_name s : is_name s = true -> name (of_string s).
Proof.
  unfold is_name, name. induction (of_string s) as [|c l IH]; simpl; [constructor|].
  intros [? ?]%andb_prop. constructor; auto.
Qed.

Lemma to_of_string s : to_string (of_string s) = s.
Proof. apply string_of_list_ascii_of_string. Qed.

Lemma to_string_app a b : to_string (a ++ b) = to_string a +:+ to_string b.
Proof. induction a as [|c a IH]; simpl; [done|]. unfold to_string in *. by rewrite IH. Qed.

Lemma digest_of_parts git_url g r :
  digest_parts (normalize git_url) = [g; r] ->
  _digest git_url = Ok (to_string g +:+ "+" +:+ to_string r).
Proof.
  intros H. unfold _digest. rewrite H. f_equal.
  by rewrite !to_string_app.
Qed.

Lemma suffix_cases suffix :
  suffix = "" \/ suffix = ".git" ->
  of_string suffix = [] \/ of_string suffix = of_string ".git".
Proof. intros [->| ->]; auto. Qed.

Lemma digest_https_url host group repo suffix :
  is_name group = true -> is_name repo = true -> repo <> "" ->
  endswith (lower (of_string repo)) (of_string ".git") = false ->
  suffix = "" \/ suffix = ".git" ->
  _digest (https_url host group repo suffix)
  = Ok (lower_string group +:+ "+" +:+ lower_string repo).
Proof.
  intros Hg%is_name_name Hr%is_name_name Hne Hgit Hsuf. apply digest_of_parts.
  rewrite <- (to_of_string (https_url host group repo suffix)).
  unfold https_url. rewrite !of_string_app.
  change (of_string "https://") with ("h"%char :: of_string "ttps://").
  change (of_string "/") with ["/"%char].
  replace (("h"%char :: of_string "ttps://") ++ of_string host ++ ["/"%char] ++
           of_string group ++ ["/"%char] ++ of_string repo ++ of_string suffix)
    with ((("h"%char :: of_string "ttps://" ++ of_string host ++ "/"%char :: of_string group)
           ++ "/"%char :: of_string repo) ++ of_string suffix)
    by (simpl; rewrite <- ?app_assoc; simpl; by rewrite <- ?app_assoc).
  rewrite normalize_body; try done.
  - rewrite lower_app, !lower_cons, !lower_app, !lower_cons.
    match goal with |- digest_parts ?x = _ =>
      replace x with (of_string "https://" ++ lower (of_string host) ++
                      "/"%char :: lower (of_string group) ++ "/"%char :: lower (of_string repo))
        by (simpl; rewrite <- ?app_assoc; simpl; by rewrite <- ?app_assoc)
    end.
    apply (digest_parts_https (lower (of_string host))).
    + apply (name_no_char _ "/"); [done|by apply lower_name].
    + apply (name_no_char _ "/"); [done|by apply lower_name].
  - intros He. apply Hne. rewrite <- (to_of_string repo). by rewrite He.
  - by apply suffix_cases.
Qed.

Lemma digest_scp_address host group repo suffix :
  is_name host = true -> is_name group = true -> is_name repo = true -> repo <> "" ->
  endswith (lower (of_string repo)) (of_string ".git") = false ->
  suffix = "" \/ suffix = ".git" ->
  _digest (scp_address host group repo suffix)
  = Ok (lower_string group +:+ "+" +:+ lower_string repo).
Proof.
  intros Hh%is_name_name Hg%is_name_name Hr%is_name_name Hne Hgit Hsuf.
  apply digest_of_parts.
  rewrite <- (to_of_string (scp_address host group repo suffix)).
  unfold scp_address. rewrite !of_string_app.
  change (of_string "/") with ["/"%char]. change (of_string ":") with [":"%char].
  assert (exists c0 P, isspace c0 = false /\
            of_string host ++ ":"%char :: of_string group = c0 :: P) as (c0 & P & Hc0 & HP).
  { unfold name in Hh. destruct (of_string host) as [|c h] eqn:Hhost.
    - by exists ":"%char, (of_string group).
    - exists c, (h ++ ":"%char :: of_string group). split; [|done].
      apply Forall_cons in Hh as [Hc _]. by apply name_char_inv in Hc as [? _]. }
  replace (of_string host ++ [":"%char] ++ of_string group ++ ["/"%char] ++
           of_string repo ++ of_string suffix)
    with (((c0 :: P) ++ "/"%char :: of_string repo) ++ of_string suffix)
    by (rewrite <- HP; simpl; rewrite <- ?app_assoc; simpl; by rewrite <- ?app_assoc).
  rewrite normalize_body; try done.
  - rewrite <- HP, !lower_app, !lower_cons.
    match goal with |- digest_parts ?x = _ =>
      replace x with (lower (of_string host) ++ ":"%char :: lower (of_string group) ++
                      "/"%char :: lower (of_string repo))
        by (simpl; rewrite <- ?app_assoc; simpl; by rewrite <- ?app_assoc)
    end.
    apply digest_parts_scp;
      (apply name_no_char; [done|by apply lower_name]).
  - intros He. apply Hne. rewrite <- (to_of_string repo). by rewrite He.
  - by apply suffix_cases.
Qed.

(** The parts of a normal form [scheme://a/group/repo] under a scheme
    other than [https]: five pieces, the first two empty. *)
Lemma digest_parts_scheme (pre a g r : chars) :
  startswith (pre ++ ":"%char :: "/"%char :: "/"%char :: a ++ "/"%char :: g ++ "/"%char :: r)
    (of_string "https://") = false ->
  ":"%char ∉ a -> ":"%char ∉ g -> ":"%char ∉ r ->
  "/"%char ∉ a -> "/"%char ∉ g -> "/"%char ∉ r ->
  digest_parts (pre ++ ":"%char :: "/"%char :: "/"%char :: a ++ "/"%char :: g ++ "/"%char :: r)
  = [[]; []; a; g; r].
Proof.
  intros Hs Ha Hg Hr Ha' Hg' Hr'. unfold digest_parts. rewrite Hs.
  rewrite split_app_sep, last_piece_snoc.
  2:{ repeat first [apply not_elem_of_cons; split; [done|]
                     | apply not_elem_of_app; split; [done|]]; done. }
  replace ("/"%char :: "/"%char :: a ++ "/"%char :: g ++ "/"%char :: r)
    with (((([] ++ "/"%char :: []) ++ "/"%char :: a) ++ "/"%char :: g) ++ "/"%char :: r)
    by (simpl; by rewrite <- !app_assoc).
  rewrite !split_app_sep by (done || apply not_elem_of_nil). done.
Qed.

Lemma prefix_mismatch (X t p : chars) i x y :
  X !! i = Some x -> p !! i = Some y -> x <> y -> startswith (X ++ t) p = false.
Proof.
  intros HX Hp Hne. unfold startswith. apply bool_decide_eq_false. intros [k Hk].
  assert (H1 : (X ++ t) !! i = Some x) by (by apply lookup_app_l_Some).
  assert (H2 : (p ++ k) !! i = Some y) by (by apply lookup_app_l_Some).
  rewrite Hk in H1. congruence.
Qed.

(** An address [scheme://a/group/repo.git] whose scheme is not [https] has
    no key: the text after the colon of the scheme has five pieces. *)
Lemma digest_other_scheme c0 (pre a g r : chars) i x y :
  isspace c0 = false ->
  lower (c0 :: pre ++ [":"%char]) !! i = Some x ->
  of_string "https://" !! i = Some y ->
  x <> y ->
  name a -> name g -> name r -> r <> [] ->
  endswith (lower r) (of_string ".git") = false ->
  _digest (to_string ((c0 :: pre) ++ of_string "://" ++ a ++ "/"%char :: g ++ "/"%char :: r
                      ++ of_string ".git"))
  = Raise ValueError.
Proof.
  intros H0 Hx Hy Hne Ha Hg Hr Hr0 Hgit.
  replace ((c0 :: pre) ++ of_string "://" ++ a ++ "/"%char :: g ++ "/"%char :: r
           ++ of_string ".git")
    with (((c0 :: pre ++ of_string "://" ++ a ++ "/"%char :: g) ++ "/"%char :: r)
          ++ of_string ".git")
    by (simpl; rewrite <- ?app_assoc; simpl; by rewrite <- ?app_assoc).
  unfold _digest. rewrite normalize_body; try done; [|by right].
  replace (lower ((c0 :: pre ++ of_string "://" ++ a ++ "/"%char :: g) ++ "/"%char :: r))
    with (lower (c0 :: pre) ++ ":"%char :: "/"%char :: "/"%char :: lower a
          ++ "/"%char :: lower g ++ "/"%char :: lower r).
  2:{ rewrite ?lower_app, ?lower_cons, ?lower_app, ?lower_cons, ?lower_app, ?lower_cons.
      simpl. rewrite <- ?app_assoc. simpl. by rewrite <- ?app_assoc. }
  rewrite digest_parts_scheme; [done| |..];
    try (apply name_no_char; [done|by apply lower_name]).
  replace (lower (c0 :: pre) ++ ":"%char :: "/"%char :: "/"%char :: lower a
           ++ "/"%char :: lower g ++ "/"%char :: lower r)
    with (lower (c0 :: pre ++ [":"%char]) ++ "/"%char :: "/"%char :: lower a
          ++ "/"%char :: lower g ++ "/"%char :: lower r)
    by (rewrite app_comm_cons, lower_app; simpl; by rewrite <- app_assoc).
  by eapply prefix_mismatch.
Qed.

Lemma digest_http_url host group repo :
  is_name host = true -> is_name group = true -> is_name repo = true -> repo <> "" ->
  endswith (lower (of_string repo)) (of_string ".git") = false ->
  _digest (address HttpUrl host group repo) = Raise ValueError.
Proof.
  intros Hh%is_name_name Hg%is_name_name Hr%is_name_name Hne Hgit.
  rewrite <- (to_of_string (address HttpUrl host group repo)).
  unfold address. rewrite !of_string_app.
  change (of_string "http://") with (("h"%char :: of_string "ttp") ++ of_string "://").
  change (of_string "/") with ["/"%char].
  rewrite <- !app_assoc.
  apply (digest_other_scheme "h" (of_string "ttp") _ _ _ 4%nat ":"%char "s"%char);
    try done.
  intros He. apply Hne. rewrite <- (to_of_string repo). by rewrite He.
Qed.

Lemma digest_ssh_url host group repo :
  is_name host = true -> is_name group = true -> is_name repo = true -> repo <> "" ->
  endswith (lower (of_string repo)) (of_string ".git") = false ->
  _digest (address SshUrl host group repo) = Raise ValueError.
Proof.
  intros Hh%is_name_name Hg%is_name_name Hr%is_name_name Hne Hgit.
  rewrite <- (to_of_string (address SshUrl host group repo)).
  unfold address. rewrite !of_string_app.
  change (of_string "ssh://git@") with (("s"%char :: of_string "sh") ++ of_string "://" ++ of_string "git@").
  change (of_string "/") with ["/"%char].
  rewrite <- !app_assoc.
  replace (of_string "git@" ++ of_string host ++ ["/"%char] ++ of_string group ++ ["/"%char]
           ++ of_string repo ++ of_string ".git")
    with ((of_string "git@" ++ of_string host) ++ "/"%char :: of_string group ++ "/"%char
           :: of_string repo ++ of_string ".git")
    by (by rewrite <- !app_assoc).
  apply (digest_other_scheme "s" (of_string "sh") _ _ _ 0%nat "s"%char "h"%char);
    try done.
  - unfold name. apply Forall_app. split; [|done].
    repeat constructor.
  - intros He. apply Hne. rewrite <- (to_of_string repo). by rewrite He.
Qed.

(** C9, as stated, fails: the same repository under [http://] or [ssh://]
    has no key at all, while under [https://] it has one. *)
Lemma digest_other_schemes_counterexample :
  _digest (address HttpsUrl "host" "group" "repo") = Ok "group+repo"
  /\ _digest (address HttpUrl "host" "group" "repo") = Raise ValueError
  /\ _digest (address SshUrl "host" "group" "repo") = Raise ValueError.
Proof. vm_compute. auto. Qed.

(** C9, amended. The digest is a function of the locator alone.  For
    ASCII names, the [https://] address and the SSH-style address
    [host:group/repo] of one repository, each with or without [.git], get
    the same key, group and name in lower case joined by [+]; the
    [http://] and the [ssh://] address of the same repository get none:
    the digest raises [ValueError]. *)
Theorem digest_two_spellings host group repo s1 s2 :
  is_name host = true -> is_name group = true -> is_name repo = true ->
  repo <> "" ->
  endswith (lower (of_string repo)) (of_string ".git") = false ->
  s1 = "" \/ s1 = ".git" -> s2 = "" \/ s2 = ".git" ->
  _digest (https_url host group repo s1)
  = Ok (lower_string group +:+ "+" +:+ lower_string repo)
  /\ _digest (scp_address host group repo s2)
     = Ok (lower_string group +:+ "+" +:+ lower_string repo)
  /\ _digest (address HttpUrl host group repo) = Raise ValueError
  /\ _digest (address SshUrl host group repo) = Raise ValueError.
Proof.
  intros. split; [by apply digest_https_url|]. split; [by apply digest_scp_address|].
  split; [by apply digest_http_url | by apply digest_ssh_url].
Qed.

Lemma digest_two_spellings_witness :
  _digest "https://GitHub.com/Group/Repo.git" = Ok "group+repo"
  /\ _digest "GitHub.com:Group/Repo" = Ok "group+repo"
  /\ _digest "http://GitHub.com/Group/Repo.git" = Raise ValueError
  /\ _digest "ssh://git@GitHub.com/Group/Repo.git" = Raise ValueError.
Proof.
  apply (digest_two_spellings "GitHub.com" "Group" "Repo" ".git" "");
    try reflexivity; [discriminate | right; reflexivity | left; reflexivity].
Defined.

(** ** Dictionaries *)

Lemma length_dict_del k d : (length (dict_del k d) <= length d)%nat.
Proof. induction d as [|[k' v] d IH]; simpl; [lia|]. case_bool_decide; simpl; lia. Qed.

Lemma length_dict_del_in k d :
  k ∈ d.*1 -> (length (dict_del k d) < length d)%nat.
Proof.
  induction d as [|[k' v] d IH]; simpl; [by intros ?%elem_of_nil|].
  intros [Heq|Hin]%elem_of_cons.
  - rewrite bool_decide_true by done. pose proof (length_dict_del k d). lia.
  - case_bool_decide; simpl.
    + pose proof (length_dict_del k d). lia.
    + apply IH in Hin. lia.
Qed.

Lemma length_dict_set_in k v d :
  k ∈ d.*1 -> length (dict_set k v d) = length d.
Proof.
  induction d as [|[k' v'] d IH]; simpl; [by intros ?%elem_of_nil|].
  intros Hin. case_bool_decide; simpl; [done|].
  apply elem_of_cons in Hin as [?|Hin]; [congruence|]. by rewrite IH.
Qed.

Lemma length_dict_set k v d : (length (dict_set k v d) <= S (length d))%nat.
Proof. induction d as [|[k' v'] d IH]; simpl; [lia|]. case_bool_decide; simpl; lia. Qed.

Lemma dict_get_in k d v : dict_get k d = Some v -> k ∈ d.*1.
Proof.
  induction d as [|[k' v'] d IH]; simpl; [done|].
  case_bool_decide; [intros _; subst; apply elem_of_cons; by left|].
  intros H'. apply elem_of_cons. right. auto.
Qed.

Lemma length_dict_incr k d : length (dict_incr k d) = length d.
Proof.
  unfold dict_incr. destruct (dict_get k d) eqn:Hg; [|done].
  apply length_dict_set_in. by eapply dict_get_in.
Qed.

Lemma min_from_in best d : min_from best d = best \/ min_from best d ∈ d.
Proof.
  revert best. induction d as [|x d IH]; intros best; simpl; [by left|].
  destruct (IH (if x.2 <? best.2 then x else best)) as [->|Hin].
  - case_match; [right; apply elem_of_cons; by left|by left].
  - right. apply elem_of_cons. by right.
Qed.

Lemma min_item_in d x : min_item d = Some x -> x ∈ d.
Proof.
  destruct d as [|y d]; simpl; [done|]. intros [= <-].
  destruct (min_from_in y d) as [->|Hin]; apply elem_of_cons; auto.
Qed.

(** The item [min] picks has a counter no other item undercuts. *)
Lemma min_from_le best d x : x = best \/ x ∈ d -> (min_from best d).2 <= x.2.
Proof.
  revert best x. induction d as [|y d IH]; intros best x; simpl.
  - intros [->|?%elem_of_nil]; [lia|done].
  - pose proof (IH (if y.2 <? best.2 then y else best) _ (or_introl eq_refl)) as Hb.
    intros [->|[->|Hin]%elem_of_cons].
    + destruct (y.2 <? best.2) eqn:Hlt; [apply Z.ltb_lt in Hlt|]; lia.
    + destruct (y.2 <? best.2) eqn:Hlt; [|apply Z.ltb_ge in Hlt]; lia.
    + apply IH. by right.
Qed.

Lemma min_item_le d m x : min_item d = Some m -> x ∈ d -> m.2 <= x.2.
Proof.
  destruct d as [|y d]; simpl; [done|]. intros [= <-] Hin.
  apply min_from_le. by apply elem_of_cons in Hin.
Qed.

Lemma dict_del_not_in k d : k ∉ (dict_del k d).*1.
Proof.
  induction d as [|[k' v] d IH]; simpl; [by intros ?%elem_of_nil|].
  case_bool_decide; [done|]. simpl. intros [?|?]%elem_of_cons; [congruence|done].
Qed.

(** The operations keep a dictionary a dictionary. *)
Lemma dict_set_keys k v d :
  forall x, x ∈ (dict_set k v d).*1 <-> x = k \/ x ∈ d.*1.
Proof.
  induction d as [|[k' v'] d IH]; intros x; simpl.
  - rewrite elem_of_cons. split; intros [?|?]; auto.
  - case_bool_decide; simpl; rewrite !elem_of_cons; [|rewrite IH]; subst; tauto.
Qed.

Lemma NoDup_dict_set k v d : NoDup d.*1 -> NoDup (dict_set k v d).*1.
Proof.
  induction d as [|[k' v'] d IH]; simpl; intros Hd.
  - apply NoDup_singleton.
  - case_bool_decide; simpl; [done|].
    apply NoDup_cons in Hd as [Hk Hd]. apply NoDup_cons. split; [|auto].
    rewrite dict_set_keys. intros [?|?]; [congruence|done].
Qed.

Lemma dict_del_keys k d x : x ∈ (dict_del k d).*1 -> x ∈ d.*1.
Proof.
  induction d as [|[k' v'] d IH]; simpl; [done|].
  case_bool_decide; simpl; rewrite !elem_of_cons; intuition.
Qed.

Lemma NoDup_dict_del k d : NoDup d.*1 -> NoDup (dict_del k d).*1.
Proof.
  induction d as [|[k' v'] d IH]; simpl; intros Hd; [done|].
  apply NoDup_cons in Hd as [Hk Hd].
  case_bool_decide; simpl; [auto|].
  apply NoDup_cons. split; [|auto]. intros Hin%dict_del_keys. done.
Qed.

Lemma NoDup_dict_incr k d : NoDup d.*1 -> NoDup (dict_incr k d).*1.
Proof. unfold dict_incr. case_match; [apply NoDup_dict_set|done]. Qed.

Lemma dict_in_del key k d : dict_in key d = false -> dict_in key (dict_del k d) = false.
Proof.
  unfold dict_in. intros Hin%bool_decide_eq_false. apply bool_decide_eq_false.
  intros Hk. apply Hin. clear Hin.
  induction d as [|[k' v] d IH]; simpl in *; [done|].
  case_bool_decide; simpl in *.
  - apply elem_of_cons. right. auto.
  - apply elem_of_cons in Hk as [?|?]; apply elem_of_cons; auto.
Qed.

(** ** How the steps change the state *)

Lemma mbind_inv {A B} (m : M A) (f : A -> M B) w r w' :
  mbind m f w = (r, w') ->
  (exists e, m w = (Raise e, w') /\ r = Raise e)
  \/ (exists a w1, m w = (Ok a, w1) /\ f a w1 = (r, w')).
Proof.
  unfold mbind. destruct (m w) as [[a|e] w1]; intros H; simplify_eq; eauto.
Qed.

(** What opening a file changes. *)
Lemma open_inv file mode w f w' :
  open_ file mode w = (Ok f, w') ->
  f = file /\ docs w' = docs w /\ tmpseq w' = tmpseq w
  /\ trace w' = trace w ++ [EvOpen file mode]
  /\ nodes w' = <[file := File]> (nodes w)
  /\ nodes w !! file <> Some Dir.
Proof.
  unfold open_. intros H. repeat case_match; simplify_eq; simpl; repeat split; try done.
  all: try (by rewrite insert_id); congruence.
Qed.

Lemma open_raise file mode w e w' : open_ file mode w = (Raise e, w') -> w' = w.
Proof. unfold open_. intros H. repeat case_match; simplify_eq; done. Qed.

Lemma load_inv t w r w' :
  _load t w = (r, w') ->
  w' = w /\ ((r = Raise JSONDecodeError /\ docs w !! db_file t = Some Garbled)
             \/ r = Ok (loaded (db_file t) (lock_file t) w)).
Proof.
  unfold _load, loaded, usage_of, bad_of. intros H.
  repeat case_match; simplify_eq; auto.
Qed.

Lemma Repo_open_inv path w r w' : Repo_open path w = (r, w') -> w' = w.
Proof. unfold Repo_open. intros H. repeat case_match; simplify_eq; done. Qed.

Lemma clone_from_docs E git_url repo_path w r w' :
  clone_from E git_url repo_path w = (r, w') -> docs w' = docs w.
Proof. unfold clone_from. intros H. case_match; by simplify_eq. Qed.

Lemma fetches_app a b : fetches (a ++ b) = fetches a ++ fetches b.
Proof. apply omap_app. Qed.

Lemma quiet_refl w : quiet w w.
Proof. done. Qed.

Lemma quiet_trans w1 w2 w3 : quiet w1 w2 -> quiet w2 w3 -> quiet w1 w3.
Proof. intros [? ?] [? ?]. split; congruence. Qed.

Lemma quiet_open file mode w f w' : open_ file mode w = (Ok f, w') -> quiet w w'.
Proof.
  intros (_ & ? & _ & Ht & _)%open_inv. split; [done|].
  rewrite Ht, fetches_app. simpl. by rewrite app_nil_r.
Qed.

Lemma quiet_enter lk w : quiet w (FileLock__enter__ lk w).
Proof. split; [done|]. simpl. rewrite fetches_app. simpl. by rewrite app_nil_r. Qed.

Lemma quiet_exit lk w : quiet w (FileLock__exit__ lk w).
Proof. split; [done|]. simpl. rewrite fetches_app. simpl. by rewrite app_nil_r. Qed.

Lemma quiet_rmtree path w r w' : rmtree path w = (r, w') -> quiet w w'.
Proof.
  unfold rmtree. intros H. repeat case_match; simplify_eq; try done.
  all: split; [done|]; simpl; rewrite fetches_app; simpl; by rewrite app_nil_r.
Qed.

Lemma quiet_unlink path w r w' : unlink path w = (r, w') -> quiet w w'.
Proof.
  unfold unlink. intros H. repeat case_match; simplify_eq; try done.
  all: split; [done|]; simpl; rewrite fetches_app; simpl; by rewrite app_nil_r.
Qed.

Lemma quiet_when (b : bool) (m : M unit) w r w' :
  (forall r w', m w = (r, w') -> quiet w w') -> when b m w = (r, w') -> quiet w w'.
Proof.
  destruct b; simpl; intros Hm H; [eauto|]. unfold mret in H. simplify_eq. apply quiet_refl.
Qed.

Lemma quiet_when_rmtree p w r w' :
  when (exists_ p w) (rmtree p) w = (r, w') -> quiet w w'.
Proof. apply quiet_when. intros ? ?. apply quiet_rmtree. Qed.

Lemma quiet_when_unlink p w r w' :
  when (exists_ p w) (unlink p) w = (r, w') -> quiet w w'.
Proof. apply quiet_when. intros ? ?. apply quiet_unlink. Qed.

Lemma kept_nodes w w' : nodes w' = nodes w -> kept w w'.
Proof. intros H p n. by rewrite H. Qed.

Lemma kept_trans w1 w2 w3 : kept w1 w2 -> kept w2 w3 -> kept w1 w3.
Proof. intros H1 H2 p n Hp. auto. Qed.

Lemma kept_open file mode w f w' : open_ file mode w = (Ok f, w') -> kept w w'.
Proof.
  intros (_ & _ & _ & _ & Hn & Hd)%open_inv p n Hp. rewrite Hn.
  destruct (decide (file = p)) as [->|Hne].
  - rewrite lookup_insert_eq. destruct n; [congruence|done].
  - by rewrite lookup_insert_ne.
Qed.

Lemma usage_of_docs db w w' : docs w' = docs w -> usage_of db w' = usage_of db w.
Proof. unfold usage_of. by intros ->. Qed.

Lemma bad_of_docs db w w' : docs w' = docs w -> bad_of db w' = bad_of db w.
Proof. unfold bad_of. by intros ->. Qed.

Lemma loaded_docs db lk w w' : docs w' = docs w -> loaded db lk w' = loaded db lk w.
Proof. intros H. unfold loaded. by rewrite (usage_of_docs _ _ _ H), (bad_of_docs _ _ _ H). Qed.

Lemma usage_of_stored db w w' l b :
  docs w' = <[db := Json (mkDoc (Some l) (Some b))]> (docs w) ->
  usage_of db w' = l /\ bad_of db w' = b.
Proof. unfold usage_of, bad_of. intros ->. by rewrite lookup_insert_eq. Qed.

Lemma bad_of_readable db w key : key ∈ bad_of db w -> docs w !! db <> Some Garbled.
Proof. unfold bad_of. intros H Hg. rewrite Hg in H. set_solver. Qed.

Lemma is_under_refl path : is_under path path = true.
Proof. unfold is_under. by rewrite bool_decide_true. Qed.

Lemma rmtree_when_gone path w :
  nodes w !! path <> Some File ->
  exists w', when (exists_ path w) (rmtree path) w = (Ok tt, w')
             /\ nodes w' !! path = None
             /\ (forall p n, nodes w' !! p = Some n -> nodes w !! p = Some n).
Proof.
  intros Hnf. unfold when, exists_, rmtree, mret. cbv beta.
  destruct (nodes w !! path) as [[]|] eqn:Hp; [|congruence|].
  - rewrite bool_decide_true by eauto. rewrite Hp. eexists. split; [done|]. simpl. split.
    + apply map_lookup_filter_None. right. intros x _. simpl.
      by rewrite is_under_refl.
    + intros p n [? _]%map_lookup_filter_Some. done.
  - rewrite bool_decide_false by (by intros [? ?]). eexists. split; [done|]. auto.
Qed.

Lemma unlink_when_gone path w :
  nodes w !! path <> Some Dir ->
  exists w', when (exists_ path w) (unlink path) w = (Ok tt, w')
             /\ nodes w' !! path = None
             /\ (forall p n, nodes w' !! p = Some n -> nodes w !! p = Some n).
Proof.
  intros Hnd. unfold when, exists_, unlink, mret. cbv beta.
  destruct (nodes w !! path) as [[]|] eqn:Hp; [congruence| |].
  - rewrite bool_decide_true by eauto. rewrite Hp. eexists. split; [done|]. simpl. split.
    + apply lookup_delete_eq.
    + intros p n [? ?]%lookup_delete_Some. done.
  - rewrite bool_decide_false by (by intros [? ?]). eexists. split; [done|]. auto.
Qed.

(** ** The bodies of the transactions *)

Ltac body_goal tac :=
  split; [tac | split; [done | split; [done |]]].

Lemma evict_body_ok key repo_path repo_lock :
  body_ok (evict_body key repo_path repo_lock)
    (fun r t t' =>
       badcache t' = badcache t
       /\ (length (lrucache t') <= length (lrucache t))%nat
       /\ (dict_in key (lrucache t) = false -> r = Ok tt /\ t' = t)).
Proof.
  intros t w r t' w2. unfold evict_body, tbind, tget, tmodify, tlift, tret. simpl.
  destruct (dict_in key (lrucache t)) eqn:Hin.
  - destruct (when (exists_ repo_path w) (rmtree repo_path) w) as [[[]|e] w1] eqn:H1.
    + destruct (when (exists_ repo_lock w1) (unlink repo_lock) w1) as [r2 w3] eqn:H2.
      intros [= <- <- <-]. apply quiet_when_rmtree in H1. apply quiet_when_unlink in H2.
      body_goal ltac:(by eapply quiet_trans).
      split; [done|]. split; [apply length_dict_del|done].
    + intros [= <- <- <-]. apply quiet_when_rmtree in H1.
      body_goal ltac:(done).
      split; [done|]. split; [apply length_dict_del|done].
  - intros [= <- <- <-]. body_goal ltac:(apply quiet_refl). auto.
Qed.

Lemma evict_body_absent key repo_path repo_lock t w :
  dict_in key (lrucache t) = false ->
  evict_body key repo_path repo_lock t w = (Ok tt, t, w).
Proof. intros H. unfold evict_body, tbind, tget, tret. simpl. by rewrite H. Qed.

Lemma has_body_ok key :
  body_ok (trx <~ tget ;;
           tret (dict_in key (lrucache trx) || bool_decide (key ∈ badcache trx)))
    (fun r t t' => r = Ok (dict_in key (lrucache t) || bool_decide (key ∈ badcache t))).
Proof.
  intros t w r t' w2. unfold tbind, tget, tret. intros [= <- <- <-].
  split; [apply quiet_refl|done].
Qed.

Lemma get_lookup_ok self key repo_path :
  body_ok (get_lookup self key repo_path)
    (fun r t t' =>
       badcache t' = badcache t
       /\ (length (lrucache t') <= length (lrucache t))%nat
       /\ (r = Ok None ->
           dict_in key (lrucache t') = false /\ (key ∉ badcache t')
           /\ (Z.of_nat (length (lrucache t)) <= max_size self ->
               Z.of_nat (length (lrucache t')) < max_size self))).
Proof.
  intros t w r t' w2. unfold get_lookup, tbind, tget, tmodify, tlift, tret, traise. simpl.
  destruct (dict_in key (lrucache t)) eqn:Hin.
  { destruct (Repo_open repo_path w) as [[rp|e] w1] eqn:Ho;
      apply Repo_open_inv in Ho as ->; intros [= <- <- <-]; simpl;
      rewrite length_dict_incr; body_goal ltac:(apply quiet_refl); done. }
  case_bool_decide as Hbad.
  { intros [= <- <- <-]. body_goal ltac:(apply quiet_refl). done. }
  destruct (max_size self <=? Z.of_nat (length (lrucache t))) eqn:Hcap.
  2:{ intros [= <- <- <-]. apply Z.leb_gt in Hcap. body_goal ltac:(apply quiet_refl).
      repeat split; try done; lia. }
  destruct (min_item (lrucache t)) as [least|] eqn:Hmin.
  2:{ intros [= <- <- <-]. body_goal ltac:(apply quiet_refl). done. }
  set (least_path := os_path_join (repo_base self) least.1).
  set (least_lock := os_path_join (repo_base self) (least.1 +:+ ".lock")).
  destruct (when (exists_ least_path w) (rmtree least_path) w) as [[[]|e] w1] eqn:H1.
  2:{ intros [= <- <- <-]. apply quiet_when_rmtree in H1. body_goal ltac:(done). done. }
  destruct (when (exists_ least_lock w1) (unlink least_lock) w1) as [[[]|e] w3] eqn:H2.
  2:{ intros [= <- <- <-]. apply quiet_when_rmtree in H1. apply quiet_when_unlink in H2.
      body_goal ltac:(by eapply quiet_trans). done. }
  intros [= <- <- <-]. apply quiet_when_rmtree in H1. apply quiet_when_unlink in H2.
  assert (Hlt : (length (dict_del least.1 (lrucache t)) < length (lrucache t))%nat).
  { apply length_dict_del_in. apply min_item_in in Hmin.
    apply list_elem_of_fmap. by exists least. }
  simpl. body_goal ltac:(by eapply quiet_trans).
  split; [done|]. split; [lia|]. intros _.
  split; [by apply dict_in_del|]. split; [done|lia].
Qed.

Lemma get_lookup_known_bad self key repo_path :
  body_ok (get_lookup self key repo_path)
    (fun r t t' =>
       dict_in key (lrucache t) = false -> key ∈ badcache t -> r = Ok (Some None)).
Proof.
  intros t w r t' w2 H.
  destruct (get_lookup_ok self key repo_path t w r t' w2 H) as (Hq & Hdb & Hlk & _).
  split; [done|]. split; [done|]. split; [done|]. intros Hin Hbad.
  unfold get_lookup, tbind, tget, tret in H. simpl in H. rewrite Hin in H.
  rewrite bool_decide_true in H by done. by simplify_eq.
Qed.

Lemma get_recheck_ok key :
  body_ok (get_recheck key)
    (fun r t t' => t' = t /\ (r = Ok None -> key ∉ badcache t)
                   /\ (r = Ok None \/ r = Ok (Some None))).
Proof.
  intros t w r t' w2. unfold get_recheck, tbind, tget, tret. simpl.
  case_bool_decide; intros [= <- <- <-]; body_goal ltac:(apply quiet_refl);
    repeat split; auto; done.
Qed.

Lemma get_mark_bad_ok key :
  body_ok (get_mark_bad key)
    (fun r t t' => r = Ok tt /\ lrucache t' = lrucache t
                   /\ badcache t' = {[key]} ∪ badcache t).
Proof.
  intros t w r t' w2. unfold get_mark_bad, tbind, tget, tmodify. simpl.
  intros [= <- <- <-]. body_goal ltac:(apply quiet_refl). done.
Qed.

Lemma get_record_ok key repo_path :
  body_ok (get_record key repo_path)
    (fun r t t' => badcache t' = badcache t
                   /\ (length (lrucache t') <= S (length (lrucache t)))%nat).
Proof.
  intros t w r t' w2. unfold get_record, tbind, tget, tmodify, tlift, tret. simpl.
  destruct (dict_in key (lrucache t)) eqn:Hin; simpl;
    destruct (Repo_open repo_path w) as [[rp|e] w1] eqn:Ho;
    apply Repo_open_inv in Ho as ->; intros [= <- <- <-]; simpl;
    body_goal ltac:(apply quiet_refl); (split; [done|]);
    rewrite ?length_dict_incr; try lia; apply length_dict_set.
Qed.

(** The eviction step of [get]: with the map at capacity and the key new,
    the first transaction picks an item whose counter is the least, removes
    its directory and its lock file, and deletes its record. *)
Lemma eviction_removes_a_minimum self key repo_path t w least :
  dict_in key (lrucache t) = false ->
  key ∉ badcache t ->
  max_size self <= Z.of_nat (length (lrucache t)) ->
  min_item (lrucache t) = Some least ->
  nodes w !! os_path_join (repo_base self) least.1 <> Some File ->
  nodes w !! os_path_join (repo_base self) (least.1 +:+ ".lock") <> Some Dir ->
  exists w',
    get_lookup self key repo_path t w
    = (Ok None, set_lrucache (dict_del least.1 (lrucache t)) t, w')
    /\ least ∈ lrucache t
    /\ (forall x, x ∈ lrucache t -> least.2 <= x.2)
    /\ (least.1 ∉ (dict_del least.1 (lrucache t)).*1)
    /\ nodes w' !! os_path_join (repo_base self) least.1 = None
    /\ nodes w' !! os_path_join (repo_base self) (least.1 +:+ ".lock") = None.
Proof.
  intros Hin Hbad Hcap Hmin Hpath Hlock.
  destruct (rmtree_when_gone _ w Hpath) as (w1 & Hrm & Hgone1 & Hsub1).
  assert (Hlock1 : nodes w1 !! os_path_join (repo_base self) (least.1 +:+ ".lock") <> Some Dir).
  { intros H. apply Hsub1 in H. done. }
  destruct (unlink_when_gone _ w1 Hlock1) as (w2 & Hun & Hgone2 & Hsub2).
  exists w2. unfold get_lookup, tbind, tget, tmodify, tlift, tret. simpl.
  rewrite Hin. rewrite bool_decide_false by done.
  apply Z.leb_le in Hcap. rewrite Hcap, Hmin. simpl. rewrite Hrm, Hun.
  split; [done|]. split; [by apply min_item_in|].
  split; [intros x; by apply min_item_le|]. split; [apply dict_del_not_in|].
  split; [|done].
  destruct (nodes w2 !! os_path_join (repo_base self) least.1) eqn:H2; [|done].
  apply Hsub2 in H2. congruence.
Qed.

(** ** Transactions and locks, for any class bound to [FileLock] *)

Section Transactions.
Variable F : string -> string -> M FileLock.
Variable E : Env.
Hypothesis HF : lock_class_ok F.

(** The ways a transaction can go: the lock is not built; the index does
    not load; or the body runs on what was loaded and [__exit__] follows. *)
Lemma with_Transaction_inv {A} (fdb : FileDB) (mode : string) (body : TM A) w r w' :
  with_Transaction E (Transaction__init__ F (fdb_db_file fdb) (fdb_lock_file fdb) mode) body w
  = (r, w') ->
  let lk := mkFileLock (fdb_lock_file fdb) mode in
  (exists e, r = Raise e /\ w' = w)
  \/ (exists w1,
        open_ (fdb_lock_file fdb) (if bool_decide (mode = "r") then "rb" else "wb") w
        = (Ok (fdb_lock_file fdb), w1)
        /\ ((r = Raise JSONDecodeError /\ w' = FileLock__enter__ lk w1)
            \/ (exists t' w2,
                  body (loaded (fdb_db_file fdb) lk (FileLock__enter__ lk w1))
                    (FileLock__enter__ lk w1) = (r, t', w2)
                  /\ w' = Transaction__exit__ E t' w2))).
Proof.
  intros H lk. unfold with_Transaction, Transaction__init__ in H.
  apply mbind_inv in H as [(e & H & ->)|(t0 & w0 & H & Hrest)].
  - apply mbind_inv in H as [(e' & H & ?)|(lk0 & w1 & H & H')]; simplify_eq.
    left. eexists. split; [done|].
    destruct (HF (fdb_lock_file fdb) mode w) as [(e2 & He)|(w2 & _ & He)]; congruence.
  - apply mbind_inv in H as [(e' & H & ?)|(lk0 & w1 & H & H')]; [discriminate|].
    unfold mret in H'. simplify_eq.
    destruct (HF (fdb_lock_file fdb) mode w) as [(e2 & He)|(w2 & Ho & He)]; [congruence|].
    rewrite He in H. simplify_eq. right. exists w0. split; [done|].
    unfold Transaction__enter__ in Hrest. simpl in Hrest.
    destruct (_load _ _) as [[t|e] w3] eqn:Hl; apply load_inv in Hl as [-> Hl].
    + destruct Hl as [[? _]|Hl]; [discriminate|]. simplify_eq. simpl in Hrest.
      right.
      destruct (body _ _) as [[r0 t'] w2] eqn:Hb. simplify_eq.
      by exists t', w2.
    + destruct Hl as [[? _]|Hl]; [|discriminate]. simplify_eq. by left.
Qed.

Lemma with_FileLock_inv {A} file mode (body : M A) w r w' :
  with_FileLock (F file mode) body w = (r, w') ->
  let lk := mkFileLock file mode in
  (exists e, r = Raise e /\ w' = w)
  \/ (exists w1 w2,
        open_ file (if bool_decide (mode = "r") then "rb" else "wb") w = (Ok file, w1)
        /\ body (FileLock__enter__ lk w1) = (r, w2)
        /\ w' = FileLock__exit__ lk w2).
Proof.
  intros H lk. unfold with_FileLock in H.
  apply mbind_inv in H as [(e & H & ->)|(lk0 & w1 & H & Hrest)].
  - left. exists e. split; [done|].
    destruct (HF file mode w) as [(e2 & He)|(w2 & _ & He)]; congruence.
  - destruct (HF file mode w) as [(e2 & He)|(w2 & Ho & He)]; [congruence|].
    rewrite He in H. simplify_eq. right.
    destruct (body _) as [r0 w2] eqn:Hb. simplify_eq. by exists w1, w2.
Qed.

(** A transaction whose lock is built and whose index is readable runs
    its body. *)
Lemma with_Transaction_run {A} (fdb : FileDB) mode (body : TM A) w lk w1 :
  F (fdb_lock_file fdb) mode w = (Ok lk, w1) ->
  docs w !! fdb_db_file fdb <> Some Garbled ->
  with_Transaction E (Transaction__init__ F (fdb_db_file fdb) (fdb_lock_file fdb) mode) body w
  = (let '(r, t', w2) := body (loaded (fdb_db_file fdb) lk w) (FileLock__enter__ lk w1) in
     (r, Transaction__exit__ E t' w2))
  /\ lk = mkFileLock (fdb_lock_file fdb) mode
  /\ open_ (fdb_lock_file fdb) (if bool_decide (mode = "r") then "rb" else "wb") w
     = (Ok (fdb_lock_file fdb), w1).
Proof.
  intros HFe Hdoc.
  destruct (HF (fdb_lock_file fdb) mode w) as [(e2 & He)|(w2 & Ho & He)]; [congruence|].
  rewrite He in HFe. simplify_eq. split; [|done].
  pose proof (quiet_open _ _ _ _ _ Ho) as [Hd _].
  unfold with_Transaction, Transaction__init__, mbind, mret. rewrite He.
  unfold Transaction__enter__, _load, loaded, usage_of, bad_of. simpl. rewrite Hd.
  destruct (docs w !! fdb_db_file fdb) as [[|obj]|] eqn:Hdb; done.
Qed.

End Transactions.

Section Protocol.
Variable F : string -> string -> M FileLock.
Variable E : Env.
Hypothesis HF : lock_class_ok F.

(** A write transaction: either it raises before its body and the index
    is as before, or the body ran on the loaded fields and the index holds
    what the body left; no fetcher is called either way. *)
Lemma write_transaction_spec {A} (fdb : FileDB) (body : TM A) Q w r w' :
  body_ok body Q ->
  with_Transaction E (lock F fdb) body w = (r, w') ->
  fetches (trace w') = fetches (trace w)
  /\ ((exists e, r = Raise e /\ docs w' = docs w)
      \/ (exists t',
            Q r (loaded (fdb_db_file fdb) (mkFileLock (fdb_lock_file fdb) "w") w) t'
            /\ docs w' = <[fdb_db_file fdb :=
                            Json (mkDoc (Some (lrucache t')) (Some (badcache t')))]> (docs w))).
Proof.
  intros Hbody H. unfold lock in H.
  apply (with_Transaction_inv F E HF) in H as [(e & -> & ->)|(w1 & Ho & H)].
  { split; [done|]. left. by exists e. }
  apply quiet_open in Ho as Hq1.
  pose proof (quiet_trans _ _ _ Hq1 (quiet_enter (mkFileLock (fdb_lock_file fdb) "w") w1)) as Hq2.
  destruct H as [[-> ->]|(t' & w2 & Hb & ->)].
  { destruct Hq2 as [Hd Hf]. split; [done|]. left. by exists JSONDecodeError. }
  apply Hbody in Hb as (Hq3 & Hdb & Hlk & HQ).
  rewrite (loaded_docs _ _ w) in HQ, Hdb, Hlk by apply Hq2.
  pose proof (quiet_trans _ _ _ Hq2 Hq3) as [Hd Hf].
  unfold Transaction__exit__. rewrite Hlk. simpl.
  split.
  - rewrite !fetches_app. simpl. by rewrite !app_nil_r.
  - right. exists t'. split; [done|]. by rewrite Hdb, Hd.
Qed.

(** A read transaction never changes the index. *)
Lemma read_transaction_spec {A} (fdb : FileDB) (body : TM A) Q w r w' :
  body_ok body Q ->
  with_Transaction E (lock_read F fdb) body w = (r, w') ->
  quiet w w'
  /\ ((exists e, r = Raise e)
      \/ (exists t',
            Q r (loaded (fdb_db_file fdb) (mkFileLock (fdb_lock_file fdb) "r") w) t')).
Proof.
  intros Hbody H. unfold lock_read in H.
  apply (with_Transaction_inv F E HF) in H as [(e & -> & ->)|(w1 & Ho & H)].
  { split; [apply quiet_refl|]. left. by exists e. }
  apply quiet_open in Ho as Hq1.
  pose proof (quiet_trans _ _ _ Hq1 (quiet_enter (mkFileLock (fdb_lock_file fdb) "r") w1)) as Hq2.
  destruct H as [[-> ->]|(t' & w2 & Hb & ->)].
  { split; [done|]. left. by exists JSONDecodeError. }
  apply Hbody in Hb as (Hq3 & Hdb & Hlk & HQ).
  rewrite (loaded_docs _ _ w) in HQ, Hdb, Hlk by apply Hq2.
  unfold Transaction__exit__. rewrite Hlk. simpl.
  split.
  - eapply quiet_trans; [apply (quiet_trans _ _ _ Hq2 Hq3)|apply quiet_exit].
  - right. by exists t'.
Qed.

End Protocol.

Section Known.
Variable F : string -> string -> M FileLock.
Variable E : Env.
Hypothesis HF : lock_class_ok F.
Variable self : LRURepoPoolSafe.

(** A key in the bad set is answered from the index: no fetch. *)
Lemma get_known_bad git_url key w r w' :
  _digest git_url = Ok key ->
  dict_in key (usage_of (index_of self) w) = false ->
  key ∈ bad_of (index_of self) w ->
  get F E self git_url w = (r, w') ->
  fetches (trace w') = fetches (trace w) /\ (r = Ok None \/ exists e, r = Raise e).
Proof.
  intros Hkey Hin Hbad Hget. unfold get in Hget. rewrite Hkey in Hget.
  apply mbind_inv in Hget as [(e & He & ?)|(k & w0 & Hk & Hget)]; [by unfold lift in He|].
  unfold lift in Hk. simplify_eq.
  apply mbind_inv in Hget as [(e & Hl & ->)|(found & w1 & Hl & Hrest)];
    apply (write_transaction_spec F E HF _ _ _ _ _ _ (get_lookup_known_bad self k _)) in Hl
      as [Hf Hl].
  - split; [done|]. right. by exists e.
  - destruct Hl as [(e & ? & _)|(t' & HQ & _)]; [done|].
    specialize (HQ Hin Hbad). simplify_eq. unfold mret in Hrest. simplify_eq. auto.
Qed.

End Known.

(** ** Persisting the index *)

(** On one file system the rename succeeds, and a transaction is what
    [with_Transaction] says. *)
Lemma with_Transaction_one_file_system {A} device E (expr : M Transaction) (body : TM A) w :
  (forall p q, device p = device q) ->
  Filesystems.with_Transaction device E expr body w = with_Transaction E expr body w.
Proof.
  intros Hone. unfold Filesystems.with_Transaction, with_Transaction, mbind.
  destruct (expr w) as [[trx0|e] w0]; [|done].
  destruct (Transaction__enter__ trx0 w0) as [[trx|e] w1]; [|done].
  destruct (body trx w1) as [[r trx'] w2].
  unfold Filesystems.Transaction__exit__, Transaction__exit__, Filesystems._dump, _dump,
    Filesystems.os_rename.
  destruct (bool_decide (mode (lock_file trx') = "w")); [|done].
  rewrite bool_decide_true by apply Hone. simpl.
  by rewrite <- app_assoc.
Qed.

(** C4. A write transaction makes its temporary file in the directory
    [tempfile] uses by default, not in the directory of the index.  When
    the two are on different file systems, a transaction whose body
    returns does not persist the document: the rename raises [OSError],
    which leaves the [with] statement in place of the body's result; the
    index file is as the body found it, the temporary file stays behind,
    and the lock is not released by [flock(LOCK_UN)]. *)
Theorem write_transaction_across_file_systems {A} device E (expr : M Transaction)
    (body : TM A) w trx0 w0 trx w1 a trx' w2 :
  expr w = (Ok trx0, w0) ->
  Transaction__enter__ trx0 w0 = (Ok trx, w1) ->
  body trx w1 = (Ok a, trx', w2) ->
  mode (lock_file trx') = "w" ->
  device (os_path_dirname (os_path_join (gettempdir E) (tmpname E (tmpseq w2))))
  <> device (os_path_dirname (db_file trx')) ->
  exists w' evs,
    Filesystems.with_Transaction device E expr body w = (Raise OSError, w')
    /\ docs w' = docs w2
    /\ tmpseq w' = S (tmpseq w2)
    /\ trace w' = trace w2 ++ evs
    /\ EvTempfile (os_path_join (gettempdir E) (tmpname E (tmpseq w2))) ∈ evs
    /\ (forall f, EvFlock f LOCK_UN ∉ evs).
Proof.
  intros He Hen Hb Hm Hdev.
  unfold Filesystems.with_Transaction, mbind. rewrite He, Hen, Hb.
  unfold Filesystems.Transaction__exit__, Filesystems._dump, Filesystems.os_rename.
  rewrite Hm. simpl. rewrite bool_decide_false by done.
  eexists _, _. split; [done|]. simpl. split; [done|]. split; [done|].
  split; [by rewrite <- app_assoc|]. split.
  - apply elem_of_cons. by left.
  - intros f Hin. repeat (apply elem_of_cons in Hin as [Hin|Hin]; [discriminate|]).
    by apply elem_of_nil in Hin.
Qed.

Lemma write_transaction_across_file_systems_witness :
  exists w' evs,
    Filesystems.with_Transaction device0 E0
      (lock FileLock_mode_first (FileDB__init__ (POOL_FILE E0))) (tret tt) w_idx
    = (Raise OSError, w')
    /\ docs w' = docs (FileLock__enter__ index_lock0
                        (snd (FileLock_mode_first (POOL_FILE E0 +:+ ".lock") "w" w_idx)))
    /\ tmpseq w' = S (tmpseq (FileLock__enter__ index_lock0
                        (snd (FileLock_mode_first (POOL_FILE E0 +:+ ".lock") "w" w_idx))))
    /\ trace w' = trace (FileLock__enter__ index_lock0
                        (snd (FileLock_mode_first (POOL_FILE E0 +:+ ".lock") "w" w_idx))) ++ evs
    /\ EvTempfile "/tmp/tmpa" ∈ evs
    /\ (forall f, EvFlock f LOCK_UN ∉ evs).
Proof.
  apply (write_transaction_across_file_systems device0 E0
           (lock FileLock_mode_first (FileDB__init__ (POOL_FILE E0))) (tret tt) w_idx
           (mkTransaction (POOL_FILE E0) index_lock0 [] ∅)
           (snd (FileLock_mode_first (POOL_FILE E0 +:+ ".lock") "w" w_idx))
           (loaded (POOL_FILE E0) index_lock0 w_idx)
           (FileLock__enter__ index_lock0
              (snd (FileLock_mode_first (POOL_FILE E0 +:+ ".lock") "w" w_idx)))
           tt
           (loaded (POOL_FILE E0) index_lock0 w_idx)
           (FileLock__enter__ index_lock0
              (snd (FileLock_mode_first (POOL_FILE E0 +:+ ".lock") "w" w_idx)))).
  - vm_compute. reflexivity.
  - vm_compute. reflexivity.
  - reflexivity.
  - reflexivity.
  - vm_compute. discriminate.
Defined.

(** The run of the failing input, event by event: the index in
    [/srv/app/repo_manager], the temporary file in [/tmp], no rename done
    and no [LOCK_UN]. *)
Example tempfile_elsewhere :
  Filesystems.with_Transaction device0 E0
    (lock FileLock_mode_first (FileDB__init__ (POOL_FILE E0))) (tret tt) w_idx
  = (Raise OSError,
     mkWorld {["/srv/app/repo_manager/repo_pool.json.lock" := File]}
       (docs w_idx) 1
       [EvOpen "/srv/app/repo_manager/repo_pool.json.lock" "wb";
        EvFlock "/srv/app/repo_manager/repo_pool.json.lock" LOCK_EX;
        EvTempfile "/tmp/tmpa";
        EvJsonDump "/tmp/tmpa" [("g+a", 1)] ∅;
        EvRename "/tmp/tmpa" "/srv/app/repo_manager/repo_pool.json"])
  /\ os_path_dirname "/tmp/tmpa" = "/tmp"
  /\ os_path_dirname "/srv/app/repo_manager/repo_pool.json" = "/srv/app/repo_manager".
Proof. vm_compute. repeat split. Qed.

(** ** The capacity bound *)

Section Capacity.
Variable F : string -> string -> M FileLock.
Variable E : Env.
Hypothesis HF : lock_class_ok F.
Variable self : LRURepoPoolSafe.

Lemma usage_count_docs w w' : docs w' = docs w -> usage_count self w' = usage_count self w.
Proof. intros H. unfold usage_count. by rewrite (usage_of_docs _ _ _ H). Qed.

(** Under the lock of the repository the usage map grows by at most the
    one key that is recorded. *)
Lemma get_locked_capacity git_url key repo_path w r w' :
  usage_count self w < max_size self ->
  get_locked F E self git_url key repo_path w = (r, w') ->
  within_capacity self w'.
Proof.
  intros Hlt H. unfold get_locked in H. unfold within_capacity.
  destruct (exists_ repo_path w).
  { apply mbind_inv in H as [(e & H & ->)|(a & w1 & H & H')];
      apply Repo_open_inv in H as ->; [lia|]. unfold mret in H'. simplify_eq. lia. }
  apply mbind_inv in H as [(e & H & ->)|(bad & w1 & H & H')].
  { apply (write_transaction_spec F E HF _ _ _ _ _ _ (get_recheck_ok key)) in H
      as [_ [(e' & _ & Hd)|(t' & (-> & _) & Hd)]].
    - rewrite (usage_count_docs _ _ Hd). lia.
    - apply usage_of_stored in Hd as [Hu _]. unfold usage_count, index_of.
      rewrite Hu. simpl. fold (index_of self). fold (usage_count self w). lia. }
  assert (Hw1 : usage_count self w1 = usage_count self w).
  { apply (write_transaction_spec F E HF _ _ _ _ _ _ (get_recheck_ok key)) in H
      as [_ [(e' & _ & Hd)|(t' & (-> & _) & Hd)]].
    - by rewrite (usage_count_docs _ _ Hd).
    - apply usage_of_stored in Hd as [Hu _]. unfold usage_count, index_of.
      by rewrite Hu. }
  destruct bad as [r0|].
  { unfold mret in H'. simplify_eq. lia. }
  destruct (clone_from E git_url repo_path w1) as [[inst|e] w2] eqn:Hc;
    apply clone_from_docs in Hc.
  - apply (write_transaction_spec F E HF _ _ _ _ _ _ (get_record_ok key repo_path)) in H'
      as [_ [(e' & _ & Hd)|(t' & (_ & Hlen) & Hd)]].
    + rewrite (usage_count_docs _ _ Hd), (usage_count_docs _ _ Hc). lia.
    + apply usage_of_stored in Hd as [Hu _]. unfold usage_count, index_of in *.
      rewrite Hu. simpl in Hlen. rewrite (usage_of_docs _ _ _ Hc) in Hlen. lia.
  - apply mbind_inv in H' as [(e' & H' & ->)|([] & w3 & H' & H'')].
    + apply (write_transaction_spec F E HF _ _ _ _ _ _ (get_mark_bad_ok key)) in H'
        as [_ [(e'' & _ & Hd)|(t' & (_ & Hl & _) & Hd)]].
      * rewrite (usage_count_docs _ _ Hd), (usage_count_docs _ _ Hc). lia.
      * apply usage_of_stored in Hd as [Hu _]. unfold usage_count, index_of in *.
        rewrite Hu, Hl. simpl. rewrite (usage_of_docs _ _ _ Hc). lia.
    + unfold mret in H''. simplify_eq.
      apply (write_transaction_spec F E HF _ _ _ _ _ _ (get_mark_bad_ok key)) in H'
        as [_ [(e'' & ? & Hd)|(t' & (_ & Hl & _) & Hd)]]; [done|].
      apply usage_of_stored in Hd as [Hu _]. unfold usage_count, index_of in *.
      rewrite Hu, Hl. simpl. rewrite (usage_of_docs _ _ _ Hc). lia.
Qed.

Lemma get_capacity git_url w r w' :
  within_capacity self w ->
  get F E self git_url w = (r, w') ->
  within_capacity self w'.
Proof.
  intros Hcap Hget. unfold get in Hget. unfold within_capacity in *.
  apply mbind_inv in Hget as [(e & Hdig & ->)|(key & w0 & Hdig & Hrest)];
    unfold lift in Hdig; simplify_eq; [done|].
  apply mbind_inv in Hrest as [(e & Hl & ->)|(found & w1 & Hl & Hk)].
  { apply (write_transaction_spec F E HF _ _ _ _ _ _ (get_lookup_ok self key _)) in Hl
      as [_ [(e' & _ & Hd)|(t' & (_ & Hlen & _) & Hd)]].
    - by rewrite (usage_count_docs _ _ Hd).
    - apply usage_of_stored in Hd as [Hu _]. unfold usage_count, index_of in *.
      rewrite Hu. simpl in Hlen. lia. }
  apply (write_transaction_spec F E HF _ _ _ _ _ _ (get_lookup_ok self key _)) in Hl
    as [_ [(e' & ? & Hd)|(t' & (_ & Hlen & Hmiss) & Hd)]]; [done|].
  apply usage_of_stored in Hd as [Hu _].
  destruct found as [r0|].
  { unfold mret in Hk. simplify_eq. unfold usage_count, index_of in *.
    rewrite Hu. simpl in Hlen. lia. }
  destruct (Hmiss eq_refl) as (_ & _ & Hroom). simpl in Hroom.
  specialize (Hroom Hcap).
  assert (Hlt : usage_count self w1 < max_size self).
  { unfold usage_count, index_of. by rewrite Hu. }
  apply (with_FileLock_inv F HF) in Hk as [(e & -> & ->)|(w2 & w3 & Ho & Hb & ->)]; [lia|].
  apply open_inv in Ho as (_ & Hd2 & _).
  apply get_locked_capacity in Hb.
  - unfold within_capacity in Hb. by rewrite (usage_count_docs w3).
  - by rewrite (usage_count_docs w1).
Qed.

Lemma evict_capacity git_url w r w' :
  within_capacity self w ->
  evict F E self git_url w = (r, w') ->
  within_capacity self w'.
Proof.
  intros Hcap Hev. unfold evict in Hev. unfold within_capacity in *.
  apply mbind_inv in Hev as [(e & Hdig & ->)|(key & w0 & Hdig & Hrest)];
    unfold lift in Hdig; simplify_eq; [done|].
  apply (with_FileLock_inv F HF) in Hrest as [(e & -> & ->)|(w2 & w3 & Ho & Hb & ->)]; [done|].
  apply open_inv in Ho as (_ & Hd2 & _).
  rewrite (usage_count_docs w3) by done.
  apply (write_transaction_spec F E HF _ _ _ _ _ _ (evict_body_ok key _ _)) in Hb
    as [_ [(e' & _ & Hd)|(t' & (_ & Hlen & _) & Hd)]].
  - rewrite (usage_count_docs _ _ Hd).
    by rewrite (usage_count_docs _ (FileLock__enter__ _ w2) Hd2).
  - apply usage_of_stored in Hd as [Hu _]. unfold usage_count, index_of in *.
    rewrite Hu. simpl in Hlen.
    rewrite (usage_of_docs _ _ (FileLock__enter__ _ w2) Hd2) in Hlen. lia.
Qed.

End Capacity.

Lemma serve_capacity F E self q w :
  lock_class_ok F -> within_capacity self w ->
  within_capacity self (serve F E self q w).2.
Proof.
  intros HF Hcap. destruct q as [u|u]; simpl.
  - unfold mbind. destruct (get F E self u w) as [[a|e] w'] eqn:Hg; simpl;
      by eapply get_capacity.
  - destruct (evict F E self u w) as [r w'] eqn:He; simpl. by eapply evict_capacity.
Qed.

Lemma states_capacity F E self qs w :
  lock_class_ok F -> within_capacity self w ->
  Forall (within_capacity self) (states F E self qs w).
Proof.
  intros HF. revert w. induction qs as [|q qs IH]; intros w Hcap; simpl; constructor.
  - by apply serve_capacity.
  - apply IH. by apply serve_capacity.
Qed.

(** C5. From a state whose usage map has at most [max_size] keys, every
    state that a sequence of completed [get] and [evict] requests goes
    through has at most [max_size] keys in its usage map.  This holds for
    every class bound to [FileLock] that meets [lock_class_ok], the
    module's own among them. *)
Theorem capacity_bound F E self qs w :
  lock_class_ok F ->
  within_capacity self w ->
  all_completed F E self qs w = true ->
  Forall (within_capacity self) (states F E self qs w).
Proof. intros HF Hcap _. by apply states_capacity. Qed.

Lemma capacity_bound_witness :
  Forall (within_capacity P2)
    (states FileLock_mode_first E0 P2
       [Get "host:g/a"; Get "host:g/b"; Get "https://host/g/c.git"; Evict "host:g/b"] w0).
Proof.
  apply capacity_bound.
  - apply FileLock_mode_first_ok.
  - unfold within_capacity. vm_compute. discriminate.
  - vm_compute. reflexivity.
Defined.

(** ** What [has] answers *)

Section Evict.
Variable F : string -> string -> M FileLock.
Variable E : Env.
Hypothesis HF : lock_class_ok F.
Variable self : LRURepoPoolSafe.

Lemma has_result git_url key w b w' :
  _digest git_url = Ok key ->
  has F E self git_url w = (Ok b, w') ->
  b = dict_in key (usage_of (index_of self) w) || bool_decide (key ∈ bad_of (index_of self) w).
Proof.
  intros Hkey H. unfold has in H. rewrite Hkey in H.
  apply mbind_inv in H as [(e & He & ?)|(k & w0 & Hk & H)]; [by unfold lift in He|].
  unfold lift in Hk. simplify_eq.
  apply (read_transaction_spec F E HF _ _ _ _ _ _ (has_body_ok k)) in H
    as [_ [(e & ?)|(t' & HQ)]]; [done|]. by simplify_eq.
Qed.

End Evict.

(** ** The miss path of [get] *)

Section Miss.
Variable F : string -> string -> M FileLock.
Variable E : Env.
Hypothesis HF : lock_class_ok F.
Variable self : LRURepoPoolSafe.
Variable git_url key : string.

Let repo_path := os_path_join (repo_base self) key.
Let repo_lock := os_path_join (repo_base self) (key +:+ ".lock").
Let index_lock := fdb_lock_file (file_db self).


End Miss.



(** ** A fetch that fails *)

Section Fetch.
Variable F : string -> string -> M FileLock.
Variable E : Env.
Hypothesis HF : lock_class_ok F.
Hypothesis HB : builds_on_files F.
Variable self : LRURepoPoolSafe.
Variable git_url key : string.
Hypothesis Hfail : clone_ok E git_url = false.

Let repo_path := os_path_join (repo_base self) key.

Lemma get_locked_failed_fetch w r w' :
  get_locked F E self git_url key repo_path w = (r, w') ->
  fetches (trace w') = fetches (trace w)
  \/ (fetches (trace w') = fetches (trace w) ++ [(git_url, repo_path)]
      /\ r = Ok None
      /\ key ∈ bad_of (index_of self) w').
Proof.
  intros H. unfold get_locked in H.
  destruct (exists_ repo_path w).
  { left. apply mbind_inv in H as [(e & H & ->)|(a & w1 & H & H')];
      apply Repo_open_inv in H as ->; [done|]. unfold mret in H'. by simplify_eq. }
  apply mbind_inv in H as [(e & Hl & ->)|(bad & w1 & Hl & Hrest)].
  { left. by apply (write_transaction_spec F E HF _ _ _ _ _ _ (get_recheck_ok key)) in Hl
      as [Hf _]. }
  pose proof (write_transaction_spec F E HF _ _ _ _ _ _ (get_recheck_ok key) Hl) as [Hf1 _].
  destruct bad as [r0|].
  { left. unfold mret in Hrest. by simplify_eq. }
  unfold lock in Hl.
  apply (with_Transaction_inv F E HF) in Hl as [(e & ? & _)|(w2 & Ho & Hl)]; [done|].
  destruct Hl as [[? _]|(t' & w3 & Hb & ->)]; [done|].
  unfold get_recheck, tbind, tget, tret in Hb. simpl in Hb.
  case_bool_decide; simplify_eq.
  apply open_inv in Ho as (_ & Hd2 & _ & _ & Hn2 & _).
  unfold clone_from in Hrest. rewrite Hfail in Hrest. simpl in Hrest.
  set (lk := mkFileLock (fdb_lock_file (file_db self)) "w") in *.
  set (w4 := log [EvClone git_url repo_path] _) in Hrest.
  assert (Hfile : nodes w4 !! fdb_lock_file (file_db self) = Some File).
  { simpl. rewrite Hn2. apply lookup_insert_eq. }
  assert (Hdoc : docs w4 !! fdb_db_file (file_db self) <> Some Garbled).
  { simpl. by rewrite lookup_insert_eq. }
  destruct (HB _ "w" _ Hfile) as [w5 HF5].
  destruct (with_Transaction_run F E HF (file_db self) "w" (get_mark_bad key)
              _ _ _ HF5 Hdoc) as (Hrun & _ & Ho5).
  apply open_inv in Ho5 as (_ & Hd5 & _ & Ht5 & _).
  unfold mbind, lock in Hrest. rewrite Hrun in Hrest.
  unfold get_mark_bad, tbind, tget, tmodify, mret in Hrest. simpl in Hrest.
  simplify_eq. right. split; [|split; [done|]].
  - simpl. rewrite Ht5. simpl. rewrite !fetches_app. simpl. rewrite !app_nil_r.
    simpl in Hf1. rewrite !fetches_app in Hf1. simpl in Hf1. rewrite !app_nil_r in Hf1.
    by rewrite Hf1.
  - unfold bad_of, index_of. simpl. rewrite lookup_insert_eq. simpl. set_solver.
Qed.

(** Behind the constructor the design holds.  With a class that builds its
    locks, a call of [get] for a locator the remote does not serve either
    calls no fetcher, or calls it once, puts the key into the bad set of
    the index in a write transaction and returns [None], which the
    module's [get] turns into [NoRepoError]; the error of the fetcher does
    not reach the caller. *)
Theorem failed_fetch_marks_bad w r w' :
  _digest git_url = Ok key ->
  get F E self git_url w = (r, w') ->
  fetches (trace w') = fetches (trace w)
  \/ (fetches (trace w') = fetches (trace w) ++ [(git_url, repo_path)]
      /\ r = Ok None
      /\ key ∈ bad_of (index_of self) w'
      /\ module_get F E self git_url w = (Raise (NoRepoError git_url), w')).
Proof.
  intros Hkey Hget.
  assert (Hmod : r = Ok None ->
            module_get F E self git_url w = (Raise (NoRepoError git_url), w')).
  { intros ->. unfold module_get, mbind. by rewrite Hget. }
  unfold get in Hget. rewrite Hkey in Hget.
  apply mbind_inv in Hget as [(e & He & ?)|(k & w0 & Hk & Hget)]; [by unfold lift in He|].
  unfold lift in Hk.
  assert (k = key) as -> by congruence. assert (w0 = w) as -> by congruence. clear Hk.
  apply mbind_inv in Hget as [(e & Hl & ->)|(found & w1 & Hl & Hrest)];
    apply (write_transaction_spec F E HF _ _ _ _ _ _ (get_lookup_ok self key _)) in Hl
      as [Hf1 _]; [by left|].
  destruct found as [r0|].
  { left. unfold mret in Hrest. congruence. }
  apply (with_FileLock_inv F HF) in Hrest as [(e & -> & ->)|(w2 & w3 & Ho & Hb & ->)];
    [by left|].
  apply quiet_open in Ho as [_ Hf2].
  apply get_locked_failed_fetch in Hb as [Hf3|(Hf3 & -> & Hbad)].
  - left. simpl in *. rewrite !fetches_app in *. simpl in *. rewrite !app_nil_r in *.
    congruence.
  - right. split; [|split; [done|split; [|by apply Hmod]]].
    + simpl in *. rewrite !fetches_app in *. simpl in *. rewrite !app_nil_r in *.
      congruence.
    + by rewrite (bad_of_docs _ w3).
Qed.

End Fetch.

Lemma failed_fetch_marks_bad_witness :
  let w' := snd (get FileLock_mode_first E0 P2 "host:bad/repo" w0) in
  fetches (trace w') = fetches (trace w0)
  \/ (fetches (trace w') = fetches (trace w0) ++ [("host:bad/repo", "/data/repos/bad+repo")]
      /\ fst (get FileLock_mode_first E0 P2 "host:bad/repo" w0) = Ok None
      /\ "bad+repo" ∈ bad_of (index_of P2) w'
      /\ module_get FileLock_mode_first E0 P2 "host:bad/repo" w0
         = (Raise (NoRepoError "host:bad/repo"), w')).
Proof.
  apply (failed_fetch_marks_bad FileLock_mode_first E0 FileLock_mode_first_ok
           FileLock_mode_first_builds P2 "host:bad/repo" "bad+repo" eq_refl w0
           (fst (get FileLock_mode_first E0 P2 "host:bad/repo" w0))).
  - reflexivity.
  - vm_compute. reflexivity.
Defined.

(** ** A fetch that fails, as the module stands *)

(** C8. As the module stands, [get] of a locator whose fetch would fail
    does not reach the fetcher: it raises [AttributeError] when it builds
    its first lock, and so does the module's [get]; the state is the one
    before the call, so the key is not added to the bad set, and the
    caller does not see [NoRepoError]. *)
Theorem failed_fetch_as_written E self git_url key w :
  _digest git_url = Ok key ->
  clone_ok E git_url = false ->
  get FileLock__init__ E self git_url w = (Raise AttributeError, w)
  /\ module_get FileLock__init__ E self git_url w = (Raise AttributeError, w).
Proof.
  intros Hkey _.
  assert (Hget : get FileLock__init__ E self git_url w = (Raise AttributeError, w)).
  { rewrite get_as_written. unfold after_digest. by rewrite Hkey. }
  split; [done|]. unfold module_get, mbind. by rewrite Hget.
Qed.

Lemma failed_fetch_as_written_witness :
  get FileLock__init__ E0 P2 "host:bad/repo" w0 = (Raise AttributeError, w0)
  /\ module_get FileLock__init__ E0 P2 "host:bad/repo" w0 = (Raise AttributeError, w0).
Proof.
  apply (failed_fetch_as_written E0 P2 "host:bad/repo" "bad+repo" w0); reflexivity.
Defined.

(** ** Eviction at capacity *)

(** C6. As the module stands, with [max_size = 2] each of [get(A)],
    [get(B)], [get(C)] raises [AttributeError] and changes nothing: no
    entry is recorded, none is evicted. *)
Theorem eviction_scenario_as_written :
  get FileLock__init__ E0 P2 "host:g/a" w0 = (Raise AttributeError, w0)
  /\ get FileLock__init__ E0 P2 "host:g/b" w0 = (Raise AttributeError, w0)
  /\ get FileLock__init__ E0 P2 "host:g/c" w0 = (Raise AttributeError, w0)
  /\ usage_of (index_of P2) w0 = [].
Proof. repeat split. Qed.

(** Behind the constructor the scenario goes as the design says: the
    first of the two least used entries is evicted with its directory and
    its lock file, and two entries remain, the new one among them. *)
Example eviction_scenario_behind_the_constructor :
  let w1 := snd (get FileLock_mode_first E0 P2 "host:g/a" w0) in
  let w2 := snd (get FileLock_mode_first E0 P2 "host:g/b" w1) in
  let w3 := snd (get FileLock_mode_first E0 P2 "host:g/c" w2) in
  usage_of (index_of P2) w2 = [("g+a", 1); ("g+b", 1)]
  /\ fst (get FileLock_mode_first E0 P2 "host:g/c" w2) = Ok (Some (mkRepo "/data/repos/g+c"))
  /\ usage_of (index_of P2) w3 = [("g+b", 1); ("g+c", 1)]
  /\ nodes w3 !! "/data/repos/g+a" = None
  /\ nodes w3 !! "/data/repos/g+a.lock" = None
  /\ nodes w3 !! "/data/repos/g+c" = Some Dir.
Proof. vm_compute. repeat split. Qed.

(** ** Callers of [get] for one new locator *)

(** C10. As the module stands, each of [n] callers of [get] for a new
    locator gets [AttributeError], and the state is the one before the
    calls: the fetcher is never called and no caller gets a handle.  A
    call fails before it reads or writes anything shared, so the order in
    which the calls run is immaterial. *)
Theorem concurrent_get_never_fetches n E self w :
  callers n (get FileLock__init__ E self "https://host/group/repo.git") w
  = (replicate n (Raise AttributeError), w).
Proof.
  induction n as [|n IH]; [done|].
  cbn [callers replicate]. rewrite get_as_written. unfold after_digest.
  rewrite digest_https. by rewrite IH.
Qed.

(** * Further properties of the code *)

(** ** The key digest, further *)

Lemma split_pieces sep s p :
  p ∈ split sep s -> (sep ∉ p) /\ (forall c, c ∈ p -> c ∈ s).
Proof.
  revert p. induction s as [|c s IH]; simpl; intros p Hp.
  - apply list_elem_of_singleton in Hp as ->. split; [apply not_elem_of_nil|done].
  - case_bool_decide as Hc.
    + apply elem_of_cons in Hp as [->|Hp].
      * split; [apply not_elem_of_nil|]. by intros ? ?%elem_of_nil.
      * destruct (IH _ Hp) as [? Hsub]. split; [done|].
        intros x Hx. apply elem_of_cons. right. auto.
    + destruct (split sep s) as [|q qs] eqn:Hs.
      { destruct (split_cons sep s) as (? & ? & ?). congruence. }
      apply elem_of_cons in Hp as [->|Hp].
      * destruct (IH q) as [Hq Hsub]; [apply elem_of_cons; by left|].
        split.
        -- intros [?|?]%elem_of_cons; [congruence|done].
        -- intros x [->|Hx]%elem_of_cons; apply elem_of_cons; auto.
      * destruct (IH p) as [Hq Hsub]; [apply elem_of_cons; by right|].
        split; [done|]. intros x Hx. apply elem_of_cons. right. auto.
Qed.

Lemma lastn_elem {A} n (l : list A) x : x ∈ lastn n l -> x ∈ l.
Proof. unfold lastn. apply subseteq_drop. Qed.

Lemma last_piece_elem sep s : last_piece (split sep s) ∈ split sep s.
Proof.
  destruct (split_cons sep s) as (p & ps & ->). unfold last_piece.
  generalize p. induction ps as [|q ps IH]; intros p0; simpl.
  - apply elem_of_cons. by left.
  - apply elem_of_cons. right. apply IH.
Qed.

(** The pieces the digest joins hold no slash and only characters of the
    normal form. *)
Lemma digest_parts_pieces u p :
  p ∈ digest_parts u -> ("/"%char ∉ p) /\ (forall c, c ∈ p -> c ∈ u).
Proof.
  unfold digest_parts. case_match.
  - intros Hp%lastn_elem. by apply split_pieces.
  - intros Hp. apply split_pieces in Hp as [Hs Hsub]. split; [done|].
    intros c Hc. apply Hsub in Hc.
    by apply (split_pieces ":" u (last_piece (split ":" u)) (last_piece_elem _ _)).
Qed.

Lemma lower_char_idemp c : lower_char (lower_char c) = lower_char c.
Proof. destruct c as [[] [] [] [] [] [] [] []]; reflexivity. Qed.

Lemma isspace_lower_char c : isspace (lower_char c) = isspace c.
Proof. destruct c as [[] [] [] [] [] [] [] []]; reflexivity. Qed.

Lemma dropwhile_elem p s c : c ∈ dropwhile p s -> c ∈ s.
Proof.
  induction s as [|x s IH]; simpl; [done|]. destruct (p x); [|done].
  intros Hc. apply elem_of_cons. right. auto.
Qed.

Lemma rstrip_elem p s c : c ∈ rstrip p s -> c ∈ s.
Proof.
  unfold rstrip. intros H. apply list_elem_of_In, in_rev, list_elem_of_In in H.
  apply dropwhile_elem, list_elem_of_In, in_rev in H. by apply list_elem_of_In.
Qed.

(** Every character of a normal form is its own lower case. *)
Lemma normalize_lower git_url c : c ∈ normalize git_url -> lower_char c = c.
Proof.
  unfold normalize. intros H.
  assert (Hl : c ∈ lower (strip (of_string git_url))).
  { case_match; [apply subseteq_take in H|]; by apply rstrip_elem in H. }
  unfold lower in Hl. apply list_elem_of_In, in_map_iff in Hl as (x & <- & _).
  apply lower_char_idemp.
Qed.

Lemma of_to_string l : of_string (to_string l) = l.
Proof. apply list_ascii_of_string_of_list_ascii. Qed.

Lemma lower_fixed l : (forall c, c ∈ l -> lower_char c = c) -> lower l = l.
Proof.
  induction l as [|x l IH]; intros H; simpl; [done|]. unfold lower in *. simpl.
  rewrite H by (apply elem_of_cons; by left).
  rewrite IH; [done|]. intros c Hc. apply H. apply elem_of_cons. by right.
Qed.

(** X1. A key that [_digest] returns holds no slash, holds a [+] and is in
    lower case; joined to a base that is not empty and does not end in a
    slash it names an entry directly under the base, [base/key]. *)
Theorem digest_key_shape git_url key :
  _digest git_url = Ok key ->
  ("/"%char ∉ of_string key)
  /\ ("+"%char ∈ of_string key)
  /\ lower (of_string key) = of_string key
  /\ (forall base, base <> "" -> endswith (of_string base) (of_string "/") = false ->
       os_path_join base key = base +:+ "/" +:+ key).
Proof.
  unfold _digest. destruct (digest_parts (normalize git_url)) as [|g [|r [|x l]]] eqn:Hp;
    try done. intros [= <-]. rewrite of_to_string.
  destruct (digest_parts_pieces (normalize git_url) g) as [Hg Hgc];
    [rewrite Hp; apply elem_of_cons; by left|].
  destruct (digest_parts_pieces (normalize git_url) r) as [Hr Hrc];
    [rewrite Hp; apply elem_of_cons; right; apply elem_of_cons; by left|].
  change (g ++ of_string "+" ++ r) with (g ++ "+"%char :: r) in *.
  assert (Hns : "/"%char ∉ g ++ "+"%char :: r).
  { rewrite elem_of_app, elem_of_cons. intros [?|[?|?]]; done. }
  split; [done|]. split.
  { rewrite elem_of_app, elem_of_cons. auto. }
  split.
  { apply lower_fixed. intros c. rewrite elem_of_app, elem_of_cons.
    intros [H|[->|H]]; [|done|]; eapply normalize_lower; eauto. }
  intros base Hb He. unfold os_path_join. rewrite of_to_string, He.
  rewrite (bool_decide_false (base = "")) by done. simpl.
  case_match eqn:Hst; [|done]. exfalso.
  unfold startswith in Hst. apply bool_decide_eq_true in Hst as [t Ht].
  apply Hns. rewrite Ht. apply elem_of_cons. by left.
Qed.

Lemma digest_key_shape_witness :
  ("/"%char ∉ of_string "group+repo")
  /\ ("+"%char ∈ of_string "group+repo")
  /\ lower (of_string "group+repo") = of_string "group+repo"
  /\ (forall base, base <> "" -> endswith (of_string base) (of_string "/") = false ->
       os_path_join base "group+repo" = base +:+ "/" +:+ "group+repo").
Proof. apply (digest_key_shape "https://Host/Group/Repo.git/"). reflexivity. Defined.

Lemma dropwhile_lower s :
  dropwhile isspace (lower s) = lower (dropwhile isspace s).
Proof.
  induction s as [|c s IH]; simpl; [done|].
  rewrite isspace_lower_char. destruct (isspace c); [done|]. done.
Qed.

Lemma lower_rev s : lower (rev s) = rev (lower s).
Proof. unfold lower. by rewrite map_rev. Qed.

Lemma strip_lower s : strip (lower s) = lower (strip s).
Proof.
  unfold strip, lstrip, rstrip.
  by rewrite dropwhile_lower, <- lower_rev, dropwhile_lower, lower_rev.
Qed.

Lemma lower_idemp s : lower (lower s) = lower s.
Proof.
  unfold lower. rewrite map_map. apply map_ext. intros c. apply lower_char_idemp.
Qed.

(** The normal form is made from the lower-case form of the locator. *)
Lemma normalize_of_lower git_url :
  normalize git_url
  = (let u := rstrip (is_char "/") (strip (lower (of_string git_url))) in
     if endswith u (of_string ".git") then take (length u - 4) u else u).
Proof. unfold normalize. by rewrite strip_lower. Qed.

(** X2. [_digest] does not look at case: two locators with the same
    lower-case form get the same result, key or error. *)
Theorem digest_ignores_case a b :
  lower (of_string a) = lower (of_string b) -> _digest a = _digest b.
Proof.
  intros H. unfold _digest. by rewrite (normalize_of_lower a), (normalize_of_lower b), H.
Qed.

Lemma digest_ignores_case_witness :
  _digest "HTTPS://GitHub.com/Group/Repo.GIT" = _digest "https://github.com/group/repo.git".
Proof. apply digest_ignores_case. reflexivity. Defined.

(** *** White space around the locator, slashes after it *)

Lemma dropwhile_all p (a s : chars) :
  forallb p a = true -> dropwhile p (a ++ s) = dropwhile p s.
Proof.
  induction a as [|c a IH]; simpl; [done|].
  intros [Hc Ha]%andb_prop. rewrite Hc. auto.
Qed.

Lemma forallb_rev p (a : chars) : forallb p (rev a) = forallb p a.
Proof.
  induction a as [|c a IH]; simpl; [done|].
  rewrite forallb_app, IH. simpl. rewrite andb_true_r. apply andb_comm.
Qed.

Lemma rstrip_all p (s b : chars) :
  forallb p b = true -> rstrip p (s ++ b) = rstrip p s.
Proof.
  intros Hb. unfold rstrip. rewrite rev_app_distr, dropwhile_all; [done|].
  by rewrite forallb_rev.
Qed.

Lemma dropwhile_app p (s b : chars) :
  dropwhile p (s ++ b)
  = if forallb p s then dropwhile p b else dropwhile p s ++ b.
Proof.
  induction s as [|c s IH]; simpl; [done|].
  destruct (p c); simpl; [done|done].
Qed.

Lemma dropwhile_nil p (b : chars) : forallb p b = true -> dropwhile p b = [].
Proof.
  intros H. rewrite <- (app_nil_r b). by rewrite dropwhile_all.
Qed.

Lemma strip_padding (a s b : chars) :
  forallb isspace a = true -> forallb isspace b = true ->
  strip (a ++ s ++ b) = strip s.
Proof.
  intros Ha Hb. unfold strip, lstrip. rewrite dropwhile_all by done.
  rewrite dropwhile_app. destruct (forallb isspace s) eqn:Hs.
  - rewrite (dropwhile_nil _ b), (dropwhile_nil _ s) by done. done.
  - by rewrite rstrip_all.
Qed.

(** X3. [_digest] ignores white space before and after the locator. *)
Theorem digest_ignores_padding a git_url b :
  all_chars isspace a = true -> all_chars isspace b = true ->
  _digest (a +:+ git_url +:+ b) = _digest git_url.
Proof.
  intros Ha Hb. unfold _digest, normalize.
  by rewrite !of_string_app, strip_padding.
Qed.

Lemma digest_ignores_padding_witness :
  _digest ("  " +:+ "host:group/repo" +:+ " ") = _digest "host:group/repo".
Proof. apply digest_ignores_padding; reflexivity. Defined.

Lemma rstrip_fixed_iff p (s : chars) :
  rstrip p s = s <-> match rev s with [] => True | c :: _ => p c = false end.
Proof.
  unfold rstrip. destruct (rev s) as [|c t] eqn:Hr.
  - simpl. assert (s = []) as -> by (by apply (f_equal (@rev _)) in Hr;
      rewrite rev_involutive in Hr). done.
  - simpl. destruct (p c) eqn:Hc.
    + split; [|done]. intros H. apply (f_equal (@length _)) in H.
      rewrite length_rev in H. apply (f_equal (@length _)) in Hr.
      rewrite length_rev in Hr. simpl in Hr.
      assert (length (dropwhile p t) <= length t)%nat.
      { clear. induction t as [|x t IH]; simpl; [lia|]. destruct (p x); simpl; lia. }
      lia.
    + split; [done|]. intros _. by rewrite <- Hr, rev_involutive.
Qed.

Lemma dropwhile_suffix p (s : chars) : exists pre, s = pre ++ dropwhile p s.
Proof.
  induction s as [|c s [pre IH]]; simpl; [by exists []|].
  destruct (p c); [|by exists []]. exists (c :: pre). simpl. by rewrite <- IH.
Qed.

Lemma rstrip_fixed_dropwhile p q (s : chars) :
  rstrip p s = s -> rstrip p (dropwhile q s) = dropwhile q s.
Proof.
  rewrite !rstrip_fixed_iff. destruct (dropwhile_suffix q s) as [pre Hs].
  intros H. rewrite Hs, rev_app_distr in H.
  destruct (rev (dropwhile q s)) as [|c t]; [done|]. exact H.
Qed.

Lemma lower_slashes (sl : chars) : forallb (is_char "/") sl = true -> lower sl = sl.
Proof.
  induction sl as [|c sl IH]; simpl; [done|]. intros [Hc Hs]%andb_prop.
  unfold is_char in Hc. apply bool_decide_eq_true in Hc as ->.
  unfold lower in *. simpl. by rewrite IH.
Qed.

Lemma rstrip_all_nil p (b : chars) : forallb p b = true -> rstrip p b = [].
Proof. intros H. apply (rstrip_all p [] b H). Qed.

(** X4. [_digest] ignores slashes that follow an ASCII locator which does
    not itself end in white space. *)
Theorem digest_ignores_trailing_slashes git_url sl :
  is_ascii git_url = true ->
  all_chars (is_char "/") sl = true ->
  rstrip isspace (of_string git_url) = of_string git_url ->
  _digest (git_url +:+ sl) = _digest git_url.
Proof.
  unfold all_chars. intros _ Hsl Hs.
  assert (Hn : rstrip (is_char "/") (lower (strip (of_string git_url ++ of_string sl)))
               = rstrip (is_char "/") (lower (strip (of_string git_url)))).
  { destruct (decide (of_string sl = [])) as [Hnil|Hne].
    { by rewrite Hnil, app_nil_r. }
    destruct (exists_last Hne) as (sl' & c & Hsnoc).
    assert (Hc : c = "/"%char).
    { rewrite Hsnoc, forallb_app in Hsl. apply andb_prop in Hsl as [_ Hc]. simpl in Hc.
      rewrite andb_true_r in Hc. unfold is_char in Hc. by apply bool_decide_eq_true in Hc. }
    unfold strip, lstrip. rewrite dropwhile_app.
    destruct (forallb isspace (of_string git_url)) eqn:Hall.
    - assert (of_string git_url = []) as Hnil.
      { rewrite <- Hs. unfold rstrip. rewrite dropwhile_nil; [done|]. by rewrite forallb_rev. }
      rewrite Hnil. simpl.
      assert (Hd : dropwhile isspace (of_string sl) = of_string sl).
      { destruct (of_string sl) as [|x t]; [done|]. simpl in *.
        apply andb_prop in Hsl as [Hx _]. unfold is_char in Hx.
        apply bool_decide_eq_true in Hx as ->. done. }
      rewrite Hd. rewrite Hsnoc at 1. rewrite rstrip_snoc by (by subst c).
      rewrite <- Hsnoc, lower_slashes by done.
      rewrite rstrip_all_nil by done. reflexivity.
    - rewrite (rstrip_fixed_dropwhile _ _ _ Hs).
      rewrite Hsnoc at 1. rewrite app_assoc, rstrip_snoc by (by subst c).
      rewrite <- app_assoc, <- Hsnoc, lower_app, (lower_slashes (of_string sl)) by done.
      by rewrite rstrip_all. }
  unfold _digest, normalize. by rewrite of_string_app, Hn.
Qed.

Lemma digest_ignores_trailing_slashes_witness :
  _digest ("https://host/group/repo" +:+ "//") = _digest "https://host/group/repo".
Proof. apply digest_ignores_trailing_slashes; reflexivity. Defined.


(** ** Which item is evicted *)

Lemma min_from_first best d :
  (min_from best d = best /\ forall x, x ∈ d -> best.2 <= x.2)
  \/ (exists pre post,
        d = pre ++ min_from best d :: post
        /\ (min_from best d).2 < best.2
        /\ (forall x, x ∈ pre -> (min_from best d).2 < x.2)
        /\ (forall x, x ∈ post -> (min_from best d).2 <= x.2)).
Proof.
  revert best. induction d as [|y d IH]; intros best; simpl.
  - left. split; [done|]. by intros x ?%elem_of_nil.
  - destruct (y.2 <? best.2) eqn:Hlt.
    + apply Z.ltb_lt in Hlt. right.
      destruct (IH y) as [[Hm Hall]|(pre & post & Hd & Hl & Hpre & Hpost)].
      * exists [], d. rewrite Hm. split; [done|]. split; [done|].
        split; [by intros x ?%elem_of_nil|done].
      * exists (y :: pre), post. split; [simpl; by rewrite <- Hd|].
        split; [lia|]. split; [|done].
        intros x [->|Hx]%elem_of_cons; [done|auto].
    + apply Z.ltb_ge in Hlt.
      destruct (IH best) as [[Hm Hall]|(pre & post & Hd & Hl & Hpre & Hpost)].
      * left. split; [done|]. intros x [->|Hx]%elem_of_cons; [done|auto].
      * right. exists (y :: pre), post. split; [simpl; by rewrite <- Hd|].
        split; [done|]. split; [|done].
        intros x [->|Hx]%elem_of_cons; [lia|auto].
Qed.

Lemma min_item_first d m :
  min_item d = Some m ->
  exists pre post,
    d = pre ++ m :: post
    /\ (forall x, x ∈ pre -> m.2 < x.2)
    /\ (forall x, x ∈ post -> m.2 <= x.2).
Proof.
  destruct d as [|y d]; simpl; [done|]. intros [= <-].
  destruct (min_from_first y d) as [[Hm Hall]|(pre & post & Hd & Hl & Hpre & Hpost)].
  - exists [], d. rewrite Hm. split; [done|]. split; [by intros x ?%elem_of_nil|done].
  - exists (y :: pre), post. split; [simpl; by rewrite <- Hd|]. split; [|done].
    intros x [->|Hx]%elem_of_cons; [done|auto].
Qed.

(** X5. When the first transaction of [get] evicts, the item it removes is
    the first one, in the order of the dictionary, whose counter is the
    least: every item before it has a larger counter, every item after it
    a counter at least as large. *)
Theorem eviction_takes_first_minimum self key repo_path t w least :
  dict_in key (lrucache t) = false ->
  key ∉ badcache t ->
  max_size self <= Z.of_nat (length (lrucache t)) ->
  min_item (lrucache t) = Some least ->
  nodes w !! os_path_join (repo_base self) least.1 <> Some File ->
  nodes w !! os_path_join (repo_base self) (least.1 +:+ ".lock") <> Some Dir ->
  exists w' pre post,
    get_lookup self key repo_path t w
    = (Ok None, set_lrucache (dict_del least.1 (lrucache t)) t, w')
    /\ lrucache t = pre ++ least :: post
    /\ (forall x, x ∈ pre -> least.2 < x.2)
    /\ (forall x, x ∈ post -> least.2 <= x.2).
Proof.
  intros Hin Hbad Hcap Hmin Hp Hl.
  destruct (eviction_removes_a_minimum self key repo_path t w least Hin Hbad Hcap Hmin Hp Hl)
    as (w' & Hrun & _).
  destruct (min_item_first _ _ Hmin) as (pre & post & Hd & Hpre & Hpost).
  by exists w', pre, post.
Qed.

Lemma eviction_takes_first_minimum_witness :
  exists w' pre post,
    get_lookup P2 "g+d" "/data/repos/g+d" t_tie w0
    = (Ok None, set_lrucache (dict_del "g+b" (lrucache t_tie)) t_tie, w')
    /\ lrucache t_tie = pre ++ ("g+b", 1) :: post
    /\ (forall x, x ∈ pre -> 1 < x.2)
    /\ (forall x, x ∈ post -> 1 <= x.2).
Proof.
  apply (eviction_takes_first_minimum P2 "g+d" "/data/repos/g+d" t_tie w0 ("g+b", 1));
    try reflexivity; done.
Defined.

(** ** [has] *)

(** Opening a file for reading creates nothing. *)
Lemma open_rb_nodes file w f w' : open_ file "rb" w = (Ok f, w') -> nodes w' = nodes w.
Proof.
  unfold open_. destruct (nodes w !! file) as [[]|]; simpl; intros H; by simplify_eq.
Qed.

Section Has.
Variable F : string -> string -> M FileLock.
Variable E : Env.
Hypothesis HF : lock_class_ok F.
Variable self : LRURepoPoolSafe.

(** X8. [has] only reads: whatever it returns, the index files, the count
    of temporary files and every path on disk are as before and no fetcher
    is called; when it returns, its answer is whether the key is in the
    usage map or in the bad set of the index. *)
Theorem has_reads_only git_url key w r w' :
  _digest git_url = Ok key ->
  has F E self git_url w = (r, w') ->
  docs w' = docs w
  /\ tmpseq w' = tmpseq w
  /\ nodes w' = nodes w
  /\ fetches (trace w') = fetches (trace w)
  /\ (forall b, r = Ok b ->
        b = dict_in key (usage_of (index_of self) w)
            || bool_decide (key ∈ bad_of (index_of self) w)).
Proof.
  intros Hkey Hhas.
  assert (Hres : forall b, r = Ok b ->
            b = dict_in key (usage_of (index_of self) w)
                || bool_decide (key ∈ bad_of (index_of self) w)).
  { intros b ->. by eapply has_result. }
  unfold has in Hhas. rewrite Hkey in Hhas.
  apply mbind_inv in Hhas as [(e & He & ?)|(k & w0 & Hk & Hhas)]; [by unfold lift in He|].
  unfold lift in Hk. assert (w0 = w) as -> by congruence. clear Hk.
  unfold lock_read in Hhas.
  apply (with_Transaction_inv F E HF) in Hhas as [(e & -> & ->)|(w1 & Ho & Hb)].
  { repeat split; done. }
  pose proof (open_rb_nodes _ _ _ _ Ho) as Hn1.
  apply open_inv in Ho as (_ & Hd & Hs & Ht & _).
  destruct Hb as [[-> ->]|(t' & w2 & Hb & ->)].
  - simpl. rewrite Ht, !fetches_app. simpl. rewrite !app_nil_r. repeat split; try done.
  - unfold tbind, tget, tret in Hb. simpl in Hb.
    assert (w2 = FileLock__enter__ (mkFileLock (fdb_lock_file (file_db self)) "r") w1)
      as -> by congruence.
    assert (lock_file t' = mkFileLock (fdb_lock_file (file_db self)) "r") as Hlk.
    { assert (Ht' : loaded (fdb_db_file (file_db self))
                      (mkFileLock (fdb_lock_file (file_db self)) "r")
                      (FileLock__enter__ (mkFileLock (fdb_lock_file (file_db self)) "r") w1)
                    = t') by congruence.
      by rewrite <- Ht'. }
    unfold Transaction__exit__. rewrite Hlk. simpl.
    rewrite Ht, !fetches_app. simpl. rewrite !app_nil_r. repeat split; try done.
Qed.

End Has.

Lemma has_reads_only_witness :
  let r := fst (has FileLock_mode_first E0 P2 "host:bad/repo" w_bad_locked) in
  let w' := snd (has FileLock_mode_first E0 P2 "host:bad/repo" w_bad_locked) in
  docs w' = docs w_bad_locked
  /\ tmpseq w' = tmpseq w_bad_locked
  /\ nodes w' = nodes w_bad_locked
  /\ fetches (trace w') = fetches (trace w_bad_locked)
  /\ (forall b, r = Ok b ->
        b = dict_in "bad+repo" (usage_of (index_of P2) w_bad_locked)
            || bool_decide ("bad+repo" ∈ bad_of (index_of P2) w_bad_locked)).
Proof.
  apply (has_reads_only FileLock_mode_first E0 FileLock_mode_first_ok P2
           "host:bad/repo" "bad+repo" w_bad_locked).
  - reflexivity.
  - vm_compute. reflexivity.
Defined.

(** ** The pool constructor *)

Section Constructor.
Variable F : string -> string -> M FileLock.
Variable E : Env.
Hypothesis HF : lock_class_ok F.

(** X10. When the constructor of the pool returns, the pool has the base
    and the capacity it was given and the index file of the module; the
    usage map of the index is the old one without the keys whose directory
    under the base does not exist, in the old order and with the old
    counters; the bad set is as before, nothing on disk is removed and no
    fetcher is called. *)
Theorem constructor_prunes base max_size w self w' :
  LRURepoPoolSafe__init__ F E base max_size w = (Ok self, w') ->
  self = mkPool base max_size (FileDB__init__ (POOL_FILE E))
  /\ usage_of (POOL_FILE E) w'
     = List.filter (fun kv => exists_ (os_path_join base kv.1) w') (usage_of (POOL_FILE E) w)
  /\ (forall k, k ∈ (usage_of (POOL_FILE E) w').*1 ->
        k ∈ (usage_of (POOL_FILE E) w).*1 /\ exists_ (os_path_join base k) w' = true)
  /\ bad_of (POOL_FILE E) w' = bad_of (POOL_FILE E) w
  /\ kept w w'
  /\ fetches (trace w') = fetches (trace w).
Proof.
  intros H. unfold LRURepoPoolSafe__init__ in H.
  apply mbind_inv in H as [(e & _ & ?)|([] & w1 & H & Hret)]; [done|].
  unfold mret in Hret. injection Hret as <- <-. split; [done|].
  unfold lock in H. simpl in H.
  apply (with_Transaction_inv F E HF (FileDB__init__ (POOL_FILE E)) "w") in H
    as [(e & ? & _)|(w2 & Ho & Hb)]; [done|].
  pose proof (kept_open _ _ _ _ _ Ho) as Hk1.
  apply open_inv in Ho as (_ & Hd & Hs & Ht & _).
  destruct Hb as [[? _]|(t' & w3 & Hb & ->)]; [done|].
  unfold validate in Hb.
  set (lk := mkFileLock (fdb_lock_file (FileDB__init__ (POOL_FILE E))) "w") in *.
  assert (Hl : loaded (POOL_FILE E) lk (FileLock__enter__ lk w2) = loaded (POOL_FILE E) lk w)
    by (apply loaded_docs; exact Hd).
  change (fdb_db_file (FileDB__init__ (POOL_FILE E))) with (POOL_FILE E) in Hb.
  rewrite Hl in Hb. injection Hb as <- <-.
  set (kept_keys := List.filter _ _).
  assert (Hu : usage_of (POOL_FILE E)
                 (Transaction__exit__ E (set_lrucache kept_keys (loaded (POOL_FILE E) lk w))
                    (FileLock__enter__ lk w2)) = kept_keys).
  { unfold usage_of, Transaction__exit__. simpl. by rewrite lookup_insert_eq. }
  assert (Hn : nodes (Transaction__exit__ E (set_lrucache kept_keys (loaded (POOL_FILE E) lk w))
                    (FileLock__enter__ lk w2)) = nodes w2) by done.
  assert (Hx : forall p, exists_ p (Transaction__exit__ E
                    (set_lrucache kept_keys (loaded (POOL_FILE E) lk w))
                    (FileLock__enter__ lk w2)) = exists_ p (FileLock__enter__ lk w2)) by done.
  split.
  { rewrite Hu. unfold kept_keys. apply filter_ext. intros kv. symmetry. apply Hx. }
  split.
  { intros k Hk. rewrite Hu in Hk.
    apply list_elem_of_fmap in Hk as ([k' v] & -> & Hin).
    apply list_elem_of_In, filter_In in Hin as [Hin Hex]. split; [|by rewrite Hx].
    apply list_elem_of_fmap. exists (k', v). split; [done|]. by apply list_elem_of_In. }
  split.
  { unfold bad_of at 1, Transaction__exit__. simpl. by rewrite lookup_insert_eq. }
  split; [exact Hk1|].
  unfold Transaction__exit__. simpl. rewrite Ht, !fetches_app. simpl. by rewrite !app_nil_r.
Qed.

End Constructor.

Lemma constructor_prunes_witness :
  let self := mkPool "/data/repos" 2 (FileDB__init__ (POOL_FILE E0)) in
  let w' := snd (LRURepoPoolSafe__init__ FileLock_mode_first E0 "/data/repos" 2 w_stale) in
  self = mkPool "/data/repos" 2 (FileDB__init__ (POOL_FILE E0))
  /\ usage_of (POOL_FILE E0) w'
     = List.filter (fun kv => exists_ (os_path_join "/data/repos" kv.1) w')
         (usage_of (POOL_FILE E0) w_stale)
  /\ (forall k, k ∈ (usage_of (POOL_FILE E0) w').*1 ->
        k ∈ (usage_of (POOL_FILE E0) w_stale).*1
        /\ exists_ (os_path_join "/data/repos" k) w' = true)
  /\ bad_of (POOL_FILE E0) w' = bad_of (POOL_FILE E0) w_stale
  /\ kept w_stale w'
  /\ fetches (trace w') = fetches (trace w_stale).
Proof.
  apply (constructor_prunes FileLock_mode_first E0 FileLock_mode_first_ok
           "/data/repos" 2 w_stale).
  vm_compute. reflexivity.
Defined.

Lemma Repo_open_ok path w repo w' :
  Repo_open path w = (Ok repo, w') -> repo = mkRepo path /\ nodes w !! path = Some Dir /\ w' = w.
Proof. unfold Repo_open. intros H. repeat case_match; simplify_eq; done. Qed.

Lemma exists_false path w : exists_ path w = false -> nodes w !! path = None.
Proof.
  unfold exists_. intros H%bool_decide_eq_false.
  destruct (nodes w !! path) eqn:Hn; [|done]. exfalso. apply H. eauto.
Qed.

(** What the first transaction of [get] answers, and from what. *)
Lemma get_lookup_answers self key repo_path :
  body_ok (get_lookup self key repo_path)
    (fun r t t' =>
       badcache t' = badcache t
       /\ (r = Ok None -> dict_in key (lrucache t) = false /\ key ∉ badcache t)
       /\ (r = Ok (Some None) -> key ∈ badcache t)).
Proof.
  intros t w r t' w2 H.
  destruct (get_lookup_ok self key repo_path t w r t' w2 H) as (Hq & Hdb & Hlk & Hbad & _).
  split; [done|]. split; [done|]. split; [done|]. split; [done|].
  unfold get_lookup, tbind, tget, tmodify, tlift, tret, traise in H. simpl in H.
  destruct (dict_in key (lrucache t)) eqn:Hin.
  { destruct (Repo_open repo_path w) as [[rp|e] w1]; simplify_eq; split; done. }
  case_bool_decide as Hb.
  { simplify_eq. split; done. }
  split; [done|]. intros ->.
  repeat case_match; simplify_eq.
Qed.

Lemma get_recheck_answers key :
  body_ok (get_recheck key)
    (fun r t t' => t' = t
                   /\ (r = Ok None /\ key ∉ badcache t \/ r = Ok (Some None) /\ key ∈ badcache t)).
Proof.
  intros t w r t' w2. unfold get_recheck, tbind, tget, tret. simpl.
  case_bool_decide; intros [= <- <- <-];
    (split; [apply quiet_refl|]); (split; [done|]); (split; [done|]); split; auto.
Qed.

Lemma get_record_answers key repo_path :
  body_ok (get_record key repo_path)
    (fun r t t' => badcache t' = badcache t /\ r <> Ok None).
Proof.
  intros t w r t' w2 H.
  destruct (get_record_ok key repo_path t w r t' w2 H) as (Hq & Hdb & Hlk & Hbad & _).
  split; [done|]. split; [done|]. split; [done|]. split; [done|].
  unfold get_record, tbind, tget, tmodify, tlift, tret in H. simpl in H.
  destruct (negb _); simpl in H;
    destruct (Repo_open repo_path w) as [[rp|e] w1]; simplify_eq; done.
Qed.

Lemma get_lookup_handle self key repo_path t w repo t' w2 :
  get_lookup self key repo_path t w = (Ok (Some (Some repo)), t', w2) ->
  repo = mkRepo repo_path /\ nodes w2 !! repo_path = Some Dir.
Proof.
  unfold get_lookup, tbind, tget, tmodify, tlift, tret, traise. simpl. intros H.
  destruct (dict_in key (lrucache t)).
  { destruct (Repo_open repo_path w) as [[rp|e] w1] eqn:Ho; [|simplify_eq].
    apply Repo_open_ok in Ho as (-> & Hd & ->). by simplify_eq. }
  repeat case_match; simplify_eq.
Qed.

Lemma get_record_handle key repo_path t w repo t' w2 :
  get_record key repo_path t w = (Ok (Some repo), t', w2) ->
  repo = mkRepo repo_path /\ nodes w2 !! repo_path = Some Dir.
Proof.
  unfold get_record, tbind, tget, tmodify, tlift, tret. simpl. intros H.
  destruct (negb _); simpl in H;
    (destruct (Repo_open repo_path w) as [[rp|e] w1] eqn:Ho; [|simplify_eq]);
    apply Repo_open_ok in Ho as (-> & Hd & ->); by simplify_eq.
Qed.

(** ** Transactions, read through the index *)

Section Index.
Variable F : string -> string -> M FileLock.
Variable E : Env.
Hypothesis HF : lock_class_ok F.

(** A write transaction, read through the index: it calls no fetcher, and
    either raises before its body with the index as it was, or leaves in the
    index the fields its body left. *)
Lemma write_transaction_index {A} (fdb : FileDB) (body : TM A) Q w r w' :
  body_ok body Q ->
  with_Transaction E (lock F fdb) body w = (r, w') ->
  fetches (trace w') = fetches (trace w)
  /\ ((exists e, r = Raise e /\ usage_of (fdb_db_file fdb) w' = usage_of (fdb_db_file fdb) w
                 /\ bad_of (fdb_db_file fdb) w' = bad_of (fdb_db_file fdb) w)
      \/ (exists t',
            Q r (loaded (fdb_db_file fdb) (mkFileLock (fdb_lock_file fdb) "w") w) t'
            /\ usage_of (fdb_db_file fdb) w' = lrucache t'
            /\ bad_of (fdb_db_file fdb) w' = badcache t')).
Proof.
  intros Hbody H.
  apply (write_transaction_spec F E HF _ _ _ _ _ _ Hbody) in H
    as [Hf [(e & -> & Hd)|(t' & HQ & Hd)]]; (split; [done|]).
  - left. exists e. split; [done|]. by rewrite (usage_of_docs _ _ _ Hd), (bad_of_docs _ _ _ Hd).
  - right. exists t'. split; [done|]. by apply usage_of_stored in Hd.
Qed.

(** What a transaction that returns leaves on disk is what its body left. *)
Lemma transaction_nodes {A} (fdb : FileDB) mode (body : TM A)
    (N : A -> gmap string node -> Prop) w a w' :
  (forall t w a t' w2, body t w = (Ok a, t', w2) -> N a (nodes w2)) ->
  with_Transaction E (Transaction__init__ F (fdb_db_file fdb) (fdb_lock_file fdb) mode) body w
  = (Ok a, w') ->
  N a (nodes w').
Proof.
  intros HN H.
  apply (with_Transaction_inv F E HF) in H as [(e & ? & _)|(w1 & _ & H)]; [done|].
  destruct H as [[? _]|(t' & w2 & Hb & ->)]; [done|].
  apply HN in Hb. unfold Transaction__exit__. by destruct (bool_decide _).
Qed.

End Index.

(** ** What [get] can do, for any class bound to [FileLock] *)

Section Discipline.
Variable F : string -> string -> M FileLock.
Variable E : Env.
Hypothesis HF : lock_class_ok F.
Variable self : LRURepoPoolSafe.
Variable git_url key : string.

Let repo_path := os_path_join (repo_base self) key.

Lemma get_locked_summary w r w' :
  get_locked F E self git_url key repo_path w = (r, w') ->
  bad_of (fdb_db_file (file_db self)) w ⊆ bad_of (fdb_db_file (file_db self)) w'
  /\ (fetches (trace w') = fetches (trace w)
      \/ (fetches (trace w') = fetches (trace w) ++ [(git_url, repo_path)]
          /\ (key ∉ bad_of (fdb_db_file (file_db self)) w) /\ nodes w !! repo_path = None))
  /\ (forall repo, r = Ok (Some repo) ->
        repo = mkRepo repo_path /\ nodes w' !! repo_path = Some Dir)
  /\ (r = Ok None -> key ∈ bad_of (fdb_db_file (file_db self)) w').
Proof.
  intros H. unfold get_locked in H.
  destruct (exists_ repo_path w) eqn:Hex.
  { apply mbind_inv in H as [(e & H & ->)|(a & w1 & H & H')].
    - apply Repo_open_inv in H as ->. repeat split; try done. by left.
    - apply Repo_open_ok in H as (-> & Hd & ->). unfold mret in H'.
      assert (r = Ok (Some (mkRepo repo_path))) as -> by congruence.
      assert (w' = w) as -> by congruence.
      split; [done|]. split; [by left|]. split; [|done].
      intros repo Hr. split; [congruence|done]. }
  apply exists_false in Hex.
  apply mbind_inv in H as [(e & Hl & ->)|(bad & w1 & Hl & Hrest)];
    apply (write_transaction_index F E HF _ _ _ _ _ _ (get_recheck_answers key)) in Hl
      as [Hf1 Hl].
  { destruct Hl as [(e' & _ & _ & Hb)|(t' & (-> & _) & _ & Hb)].
    - split; [by rewrite Hb|]. split; [by left|]. done.
    - split; [by rewrite Hb|]. split; [by left|]. done. }
  destruct Hl as [(e' & ? & _)|(t' & (-> & Hans) & _ & Hb1)]; [done|].
  simpl in Hb1.
  destruct Hans as [[Hr Hnb]|[Hr Hisb]].
  2:{ assert (bad = Some None) as -> by congruence. unfold mret in Hrest.
      assert (r = Ok None) as -> by congruence. assert (w' = w1) as -> by congruence.
      split; [by rewrite Hb1|]. split; [by left|]. split; [done|].
      intros _. by rewrite Hb1. }
  assert (bad = None) as -> by congruence.
  destruct (clone_from E git_url repo_path w1) as [[inst|e] w2] eqn:Hc.
  - assert (Hf2 : fetches (trace w2) = fetches (trace w1) ++ [(git_url, repo_path)]).
    { unfold clone_from in Hc. destruct (clone_ok E git_url); simplify_eq; simpl;
        by rewrite fetches_app. }
    pose proof (clone_from_docs _ _ _ _ _ _ Hc) as Hd2.
    pose proof Hrest as Hnodes.
    apply (write_transaction_index F E HF _ _ _ _ _ _ (get_record_answers key repo_path))
      in Hrest as [Hf3 Hl3].
    assert (Hbad' : bad_of (fdb_db_file (file_db self)) w' = bad_of (fdb_db_file (file_db self)) w).
    { destruct Hl3 as [(e' & _ & _ & Hb)|(t' & (Hbt & _) & _ & Hb)].
      - by rewrite Hb, (bad_of_docs _ _ _ Hd2).
      - rewrite Hb, Hbt. simpl. by rewrite (bad_of_docs _ _ _ Hd2). }
    split; [by rewrite Hbad'|].
    split; [right; split; [congruence|done]|].
    split.
    + intros repo ->. unfold lock in Hnodes.
      apply (transaction_nodes F E HF (file_db self) "w" (get_record key repo_path)
               (fun a n => forall repo, a = Some repo ->
                             repo = mkRepo repo_path /\ n !! repo_path = Some Dir))
        with (repo := repo) in Hnodes; [done| |done].
      intros t0 w0 a t0' w0' Hb0 repo0 ->. by eapply get_record_handle.
    + intros ->. destruct Hl3 as [(e' & ? & _)|(t' & (_ & Hne) & _)]; done.
  - assert (Hf2 : fetches (trace w2) = fetches (trace w1) ++ [(git_url, repo_path)]).
    { unfold clone_from in Hc. destruct (clone_ok E git_url); simplify_eq; simpl;
        by rewrite fetches_app. }
    pose proof (clone_from_docs _ _ _ _ _ _ Hc) as Hd2.
    apply mbind_inv in Hrest as [(e' & Hm & ->)|([] & w3 & Hm & Hret)];
      apply (write_transaction_index F E HF _ _ _ _ _ _ (get_mark_bad_ok key)) in Hm
        as [Hf3 Hl3].
    + assert (Hsub : bad_of (fdb_db_file (file_db self)) w ⊆ bad_of (fdb_db_file (file_db self)) w').
      { destruct Hl3 as [(e'' & _ & _ & Hb)|(t' & (_ & _ & Hbt) & _ & Hb)].
        - by rewrite Hb, (bad_of_docs _ _ _ Hd2), Hb1.
        - rewrite Hb, Hbt. simpl. rewrite (bad_of_docs _ _ _ Hd2), Hb1.
          apply union_subseteq_r. }
      split; [done|]. split; [right; split; [congruence|done]|]. done.
    + unfold mret in Hret. assert (r = Ok None) as -> by congruence.
      assert (w3 = w') as -> by congruence.
      destruct Hl3 as [(e'' & ? & _)|(t' & (_ & _ & Hbt) & _ & Hb)]; [done|].
      simpl in Hbt.
      rewrite (bad_of_docs _ _ _ Hd2), Hb1 in Hbt.
      split; [rewrite Hb, Hbt; apply union_subseteq_r|].
      split; [right; split; [congruence|done]|].
      split; [done|]. intros _. rewrite Hb, Hbt.
      apply elem_of_union. left. by apply elem_of_singleton.
Qed.

Lemma get_summary w r w' :
  _digest git_url = Ok key ->
  get F E self git_url w = (r, w') ->
  bad_of (fdb_db_file (file_db self)) w ⊆ bad_of (fdb_db_file (file_db self)) w'
  /\ (fetches (trace w') = fetches (trace w)
      \/ (fetches (trace w') = fetches (trace w) ++ [(git_url, repo_path)]
          /\ dict_in key (usage_of (fdb_db_file (file_db self)) w) = false /\ (key ∉ bad_of (fdb_db_file (file_db self)) w)))
  /\ (forall repo, r = Ok (Some repo) ->
        repo = mkRepo repo_path /\ nodes w' !! repo_path = Some Dir)
  /\ (r = Ok None -> key ∈ bad_of (fdb_db_file (file_db self)) w').
Proof.
  intros Hkey Hget. unfold get in Hget. rewrite Hkey in Hget.
  apply mbind_inv in Hget as [(e & He & ?)|(k & w0 & Hk & Hget)]; [by unfold lift in He|].
  unfold lift in Hk.
  assert (k = key) as -> by congruence. assert (w0 = w) as -> by congruence. clear Hk.
  fold repo_path in Hget.
  apply mbind_inv in Hget as [(e & Hl & ->)|(found & w1 & Hl & Hrest)].
  { apply (write_transaction_index F E HF _ _ _ _ _ _ (get_lookup_answers self key _)) in Hl
      as [Hf1 [(e' & _ & _ & Hb)|(t' & (Hbt & _) & _ & Hb)]].
    - split; [by rewrite Hb|]. split; [by left|]. done.
    - split; [by rewrite Hb, Hbt|]. split; [by left|]. done. }
  pose proof Hl as Hnodes.
  apply (write_transaction_index F E HF _ _ _ _ _ _ (get_lookup_answers self key _)) in Hl
    as [Hf1 [(e' & ? & _)|(t' & (Hbt & Hnone & Hsome) & _ & Hb)]]; [done|].
  simpl in Hbt, Hnone, Hsome.
  assert (Hb1 : bad_of (fdb_db_file (file_db self)) w1 = bad_of (fdb_db_file (file_db self)) w) by (by rewrite Hb, Hbt).
  destruct found as [r0|].
  { unfold mret in Hrest. assert (r = Ok r0) as -> by congruence.
    assert (w1 = w') as -> by congruence.
    split; [by rewrite Hb1|]. split; [by left|]. split.
    - intros repo Hr. assert (r0 = Some repo) as -> by congruence. unfold lock in Hnodes.
      apply (transaction_nodes F E HF (file_db self) "w" (get_lookup self key repo_path)
               (fun a n => forall repo, a = Some (Some repo) ->
                             repo = mkRepo repo_path /\ n !! repo_path = Some Dir))
        with (repo := repo) in Hnodes; [done| |done].
      intros t0 w0 a t0' w0' Hb0 repo0 ->. by eapply get_lookup_handle.
    - intros Hr. assert (r0 = None) as -> by congruence. rewrite Hb1. by apply Hsome. }
  destruct (Hnone eq_refl) as [Hin Hnb].
  apply (with_FileLock_inv F HF) in Hrest as [(e & -> & ->)|(w2 & w3 & Ho & Hb3 & ->)].
  { split; [by rewrite Hb1|]. split; [by left|]. done. }
  pose proof (quiet_open _ _ _ _ _ Ho) as [Hd2 Hf2].
  apply get_locked_summary in Hb3 as (Hsub & Hfetch & Hhandle & Hbadr).
  assert (Hb2 : bad_of (fdb_db_file (file_db self)) (FileLock__enter__
                  (mkFileLock (os_path_join (repo_base self) (key +:+ ".lock")) "w") w2)
                = bad_of (fdb_db_file (file_db self)) w) by (rewrite <- Hb1; by apply bad_of_docs).
  rewrite Hb2 in Hsub, Hfetch.
  split; [exact Hsub|]. split; [|split; [exact Hhandle|exact Hbadr]].
  simpl in Hfetch. rewrite !fetches_app in Hfetch. simpl in Hfetch.
  rewrite !app_nil_r in Hfetch. simpl. rewrite !fetches_app. simpl. rewrite !app_nil_r.
  destruct Hfetch as [Hfe|(Hfe & Hnb' & _)]; [left; congruence|].
  right. split; [congruence|]. done.
Qed.

End Discipline.

Section Answers.
Variable F : string -> string -> M FileLock.
Variable E : Env.
Hypothesis HF : lock_class_ok F.
Variable self : LRURepoPoolSafe.

(** X13. For every class bound to [FileLock] that meets [lock_class_ok], a
    call of [get] calls the fetcher at most once, for the locator it was
    given and into [base/key], and only for a key that was neither in the
    usage map nor in the bad set. *)
Theorem get_fetches_at_most_once git_url key w r w' :
  _digest git_url = Ok key ->
  get F E self git_url w = (r, w') ->
  fetches (trace w') = fetches (trace w)
  \/ (fetches (trace w') = fetches (trace w) ++ [(git_url, os_path_join (repo_base self) key)]
      /\ dict_in key (usage_of (index_of self) w) = false
      /\ (key ∉ bad_of (index_of self) w)).
Proof.
  intros Hkey Hget.
  by destruct (get_summary F E HF self git_url key w r w' Hkey Hget) as (_ & Hf & _).
Qed.

(** X14. For every class bound to [FileLock] that meets [lock_class_ok]: a
    handle that [get] returns is on [base/key], and that directory exists
    when [get] returns; [None] is returned only for a key that is then in
    the bad set of the index. *)
Theorem get_answers_are_sound git_url key w r w' :
  _digest git_url = Ok key ->
  get F E self git_url w = (r, w') ->
  (forall repo, r = Ok (Some repo) ->
     working_dir repo = os_path_join (repo_base self) key
     /\ nodes w' !! os_path_join (repo_base self) key = Some Dir)
  /\ (r = Ok None -> key ∈ bad_of (index_of self) w').
Proof.
  intros Hkey Hget.
  destruct (get_summary F E HF self git_url key w r w' Hkey Hget) as (_ & _ & Hh & Hn).
  split; [|exact Hn]. intros repo Hr. destruct (Hh repo Hr) as [-> Hd]. done.
Qed.

Lemma get_bad_grows git_url w r w' :
  get F E self git_url w = (r, w') ->
  bad_of (index_of self) w ⊆ bad_of (index_of self) w'.
Proof.
  intros Hget. destruct (_digest git_url) as [key|e] eqn:Hkey.
  - by destruct (get_summary F E HF self git_url key w r w' Hkey Hget) as (Hs & _).
  - unfold get, mbind, lift in Hget. rewrite Hkey in Hget. by simplify_eq.
Qed.

Lemma evict_bad_same git_url w r w' :
  evict F E self git_url w = (r, w') ->
  bad_of (index_of self) w' = bad_of (index_of self) w.
Proof.
  intros Hev. unfold evict in Hev.
  apply mbind_inv in Hev as [(e & Hdig & ->)|(key & w0 & Hdig & Hrest)];
    unfold lift in Hdig; simplify_eq; [done|].
  apply (with_FileLock_inv F HF) in Hrest as [(e & -> & ->)|(w2 & w3 & Ho & Hb & ->)]; [done|].
  apply open_inv in Ho as (_ & Hd2 & _).
  apply (write_transaction_index F E HF _ _ _ _ _ _ (evict_body_ok key _ _)) in Hb
    as [_ [(e' & _ & _ & Hb)|(t' & (Hbt & _) & _ & Hb)]]; unfold index_of.
  - etrans; [exact Hb|]. by apply bad_of_docs.
  - etrans; [exact Hb|]. rewrite Hbt. simpl. by apply bad_of_docs.
Qed.

Lemma serve_bad_grows q w :
  bad_of (index_of self) w ⊆ bad_of (index_of self) (serve F E self q w).2.
Proof.
  destruct q as [u|u]; simpl.
  - unfold mbind. destruct (get F E self u w) as [[a|e] w'] eqn:Hg; simpl;
      by eapply get_bad_grows.
  - destruct (evict F E self u w) as [r w'] eqn:He; simpl.
    by rewrite (evict_bad_same _ _ _ _ He).
Qed.

(** X15. For every class bound to [FileLock] that meets [lock_class_ok], no
    sequence of [get] and [evict] requests takes a key out of the bad set:
    in every state the sequence goes through the bad set includes the one
    it started from. *)
Theorem bad_set_only_grows qs w :
  Forall (fun w' => bad_of (index_of self) w ⊆ bad_of (index_of self) w')
    (states F E self qs w).
Proof.
  revert w. induction qs as [|q qs IH]; intros w; simpl; constructor.
  - apply serve_bad_grows.
  - eapply Forall_impl; [apply IH|]. intros w' Hw'. simpl in Hw'.
    etrans; [apply (serve_bad_grows q w)|exact Hw'].
Qed.

End Answers.


(** ** An index that does not load, a lock file that is not there *)

Section Unreadable.
Variable F : string -> string -> M FileLock.
Variable E : Env.
Hypothesis HF : lock_class_ok F.
Variable self : LRURepoPoolSafe.

Lemma unreadable_transaction {A} (fdb : FileDB) mode (body : TM A) w r w' :
  docs w !! fdb_db_file fdb = Some Garbled ->
  with_Transaction E (Transaction__init__ F (fdb_db_file fdb) (fdb_lock_file fdb) mode) body w
  = (r, w') ->
  (exists e, r = Raise e /\ w' = w)
  \/ (exists w1,
        open_ (fdb_lock_file fdb) (if bool_decide (mode = "r") then "rb" else "wb") w
        = (Ok (fdb_lock_file fdb), w1)
        /\ r = Raise JSONDecodeError
        /\ w' = FileLock__enter__ (mkFileLock (fdb_lock_file fdb) mode) w1).
Proof.
  intros Hg H. unfold with_Transaction, Transaction__init__, mbind, mret in H.
  destruct (HF (fdb_lock_file fdb) mode w) as [(e & He)|(w1 & Ho & He)]; rewrite He in H.
  - left. exists e. split; congruence.
  - right. exists w1. split; [done|].
    pose proof (open_inv _ _ _ _ _ Ho) as (_ & Hd & _).
    unfold Transaction__enter__, _load in H. simpl in H. rewrite Hd, Hg in H.
    split; congruence.
Qed.

(** X7. With an index file that [json.load] rejects, [get] of a locator
    that has a key raises: either the lock of the index is not built and
    nothing has changed, or [JSONDecodeError] comes out of
    [Transaction.__enter__] after the lock file was opened and locked;
    [__exit__] does not run, so no [LOCK_UN] follows and the index is not
    rewritten. *)
Theorem unreadable_index_stops_get git_url key w r w' :
  _digest git_url = Ok key ->
  docs w !! index_of self = Some Garbled ->
  get F E self git_url w = (r, w') ->
  (exists e, r = Raise e /\ w' = w)
  \/ (r = Raise JSONDecodeError
      /\ trace w' = trace w ++ [EvOpen (fdb_lock_file (file_db self)) "wb";
                                EvFlock (fdb_lock_file (file_db self)) LOCK_EX]
      /\ docs w' = docs w
      /\ nodes w' = <[fdb_lock_file (file_db self) := File]> (nodes w)).
Proof.
  intros Hkey Hg Hget. unfold get in Hget. rewrite Hkey in Hget.
  apply mbind_inv in Hget as [(e & He & ?)|(k & w0 & Hk & Hget)]; [by unfold lift in He|].
  unfold lift in Hk.
  assert (k = key) as -> by congruence. assert (w0 = w) as -> by congruence. clear Hk.
  apply mbind_inv in Hget as [(e & Hl & ->)|(found & w1 & Hl & _)];
    unfold lock in Hl;
    apply (unreadable_transaction (file_db self) "w" _ _ _ _ Hg) in Hl
      as [(e' & Hr & ->)|(w2 & Ho & Hr & ->)]; [|idtac|done|done].
  - left. by exists e.
  - right. apply open_inv in Ho as (_ & Hd & _ & Ht & Hn & _). simpl in Ht.
    split; [congruence|]. simpl. rewrite Ht, <- app_assoc. done.
Qed.

(** X9. [has] opens the lock file of the index for reading: where that
    file is not there as a plain file, [has] raises and changes nothing,
    for every class bound to [FileLock] that meets [lock_class_ok]. *)
Theorem has_needs_the_lock_file git_url w r w' :
  nodes w !! fdb_lock_file (file_db self) <> Some File ->
  has F E self git_url w = (r, w') ->
  (exists e, r = Raise e) /\ w' = w.
Proof.
  intros Hnf H. unfold has in H.
  apply mbind_inv in H as [(e & He & ->)|(k & w0 & Hk & H)].
  { unfold lift in He. split; [by exists e|congruence]. }
  unfold lift in Hk. assert (w0 = w) as -> by congruence.
  unfold lock_read in H.
  apply (with_Transaction_inv F E HF) in H as [(e & -> & ->)|(w1 & Ho & _)].
  { split; [by exists e|done]. }
  exfalso. simpl in Ho. unfold open_ in Ho.
  destruct (nodes w !! fdb_lock_file (file_db self)) as [[]|]; simplify_eq.
Qed.

End Unreadable.

Lemma unreadable_index_stops_get_witness :
  let r := fst (get FileLock_mode_first E0 P2 "host:g/a" w_garbled) in
  let w' := snd (get FileLock_mode_first E0 P2 "host:g/a" w_garbled) in
  (exists e, r = Raise e /\ w' = w_garbled)
  \/ (r = Raise JSONDecodeError
      /\ trace w' = trace w_garbled ++ [EvOpen (fdb_lock_file (file_db P2)) "wb";
                                        EvFlock (fdb_lock_file (file_db P2)) LOCK_EX]
      /\ docs w' = docs w_garbled
      /\ nodes w' = <[fdb_lock_file (file_db P2) := File]> (nodes w_garbled)).
Proof.
  apply (unreadable_index_stops_get FileLock_mode_first E0 FileLock_mode_first_ok P2
           "host:g/a" "g+a" w_garbled).
  - reflexivity.
  - reflexivity.
  - vm_compute. reflexivity.
Defined.

Lemma has_needs_the_lock_file_witness :
  (exists e, fst (has FileLock_mode_first E0 P2 "host:g/a" w0) = Raise e)
  /\ snd (has FileLock_mode_first E0 P2 "host:g/a" w0) = w0.
Proof.
  apply (has_needs_the_lock_file FileLock_mode_first E0 FileLock_mode_first_ok P2
           "host:g/a" w0).
  - vm_compute. discriminate.
  - vm_compute. reflexivity.
Defined.


(** ** Behind a class that builds its locks *)

Lemma open_wb file w :
  nodes w !! file <> Some Dir -> open_ file "wb" w = (Ok file, opened file w).
Proof.
  intros Hd. unfold open_, opened.
  destruct (nodes w !! file) as [[]|] eqn:Hn; [done| |done].
  f_equal. unfold log, set_nodes. simpl. by rewrite insert_id.
Qed.

Lemma FileLock_mode_first_builds_write_locks : builds_write_locks FileLock_mode_first.
Proof.
  intros file w Hd. exists (opened file w).
  unfold FileLock_mode_first, mbind, lift, getattr_mode, mret. simpl.
  by rewrite (open_wb file w Hd).
Qed.

Lemma quiet_opened file w : quiet w (opened file w).
Proof. split; [done|]. simpl. rewrite fetches_app. simpl. by rewrite app_nil_r. Qed.

Lemma nodes_opened file w p :
  nodes (opened file w) !! p = if bool_decide (p = file) then Some File else nodes w !! p.
Proof.
  simpl. case_bool_decide as H; [subst; apply lookup_insert_eq|by apply lookup_insert_ne].
Qed.

Section Runs.
Variable F : string -> string -> M FileLock.
Variable E : Env.
Hypothesis HF : lock_class_ok F.
Hypothesis HB : builds_write_locks F.

Lemma write_lock_built file w :
  nodes w !! file <> Some Dir ->
  F file "w" w = (Ok (mkFileLock file "w"), opened file w).
Proof.
  intros Hd. destruct (HB file w Hd) as [w' Hw'].
  destruct (HF file "w" w) as [(e & He)|(w2 & Ho & He)]; [congruence|].
  rewrite He. f_equal. simpl in Ho. rewrite (open_wb file w Hd) in Ho. congruence.
Qed.

(** A write transaction on a readable index whose lock file is not a
    directory runs its body and then [__exit__]. *)
Lemma write_transaction_runs {A} (fdb : FileDB) (body : TM A) w :
  nodes w !! fdb_lock_file fdb <> Some Dir ->
  docs w !! fdb_db_file fdb <> Some Garbled ->
  with_Transaction E (lock F fdb) body w
  = (let lk := mkFileLock (fdb_lock_file fdb) "w" in
     let '(r, t', w2) := body (loaded (fdb_db_file fdb) lk w)
                           (FileLock__enter__ lk (opened (fdb_lock_file fdb) w)) in
     (r, Transaction__exit__ E t' w2)).
Proof.
  intros Hd Hdoc.
  destruct (with_Transaction_run F E HF fdb "w" body w _ _ (write_lock_built _ w Hd) Hdoc)
    as (Hrun & _ & _).
  exact Hrun.
Qed.

Lemma with_FileLock_runs {A} file (body : M A) w :
  nodes w !! file <> Some Dir ->
  with_FileLock (F file "w") body w
  = (let lk := mkFileLock file "w" in
     let '(r, w') := body (FileLock__enter__ lk (opened file w)) in
     (r, FileLock__exit__ lk w')).
Proof.
  intros Hd. unfold with_FileLock, mbind. by rewrite (write_lock_built file w Hd).
Qed.

End Runs.

Lemma usage_of_readable db w : usage_of db w <> [] -> docs w !! db <> Some Garbled.
Proof. unfold usage_of. intros H Hg. by rewrite Hg in H. Qed.

Lemma dict_get_readable db w key v :
  dict_get key (usage_of db w) = Some v -> docs w !! db <> Some Garbled.
Proof. intros H. apply usage_of_readable. intros Hn. by rewrite Hn in H. Qed.

Lemma usage_after_exit E t w :
  mode (lock_file t) = "w" ->
  usage_of (db_file t) (Transaction__exit__ E t w) = lrucache t
  /\ bad_of (db_file t) (Transaction__exit__ E t w) = badcache t
  /\ nodes (Transaction__exit__ E t w) = nodes w
  /\ fetches (trace (Transaction__exit__ E t w)) = fetches (trace w).
Proof.
  intros Hm. unfold Transaction__exit__, usage_of, bad_of. rewrite Hm. simpl.
  rewrite lookup_insert_eq. simpl. rewrite !fetches_app. simpl. by rewrite !app_nil_r.
Qed.

(** ** A hit *)

Section Hit.
Variable F : string -> string -> M FileLock.
Variable E : Env.
Hypothesis HF : lock_class_ok F.
Hypothesis HB : builds_write_locks F.
Variable self : LRURepoPoolSafe.

Lemma get_hit_runs git_url key v w :
  _digest git_url = Ok key ->
  dict_get key (usage_of (index_of self) w) = Some v ->
  nodes w !! fdb_lock_file (file_db self) <> Some Dir ->
  fdb_lock_file (file_db self) <> os_path_join (repo_base self) key ->
  exists r w',
    get F E self git_url w = (r, w')
    /\ usage_of (index_of self) w' = dict_set key (v + 1) (usage_of (index_of self) w)
    /\ bad_of (index_of self) w' = bad_of (index_of self) w
    /\ nodes w' = <[fdb_lock_file (file_db self) := File]> (nodes w)
    /\ fetches (trace w') = fetches (trace w)
    /\ (nodes w !! os_path_join (repo_base self) key = Some Dir ->
        r = Ok (Some (mkRepo (os_path_join (repo_base self) key))))
    /\ (nodes w !! os_path_join (repo_base self) key = None -> r = Raise NoSuchPathError).
Proof.
  intros Hkey Hget Hlk Hne.
  pose proof (dict_get_readable _ _ _ _ Hget) as Hread.
  assert (Hin : dict_in key (usage_of (index_of self) w) = true).
  { apply bool_decide_eq_true. by eapply dict_get_in. }
  set (repo_path := os_path_join (repo_base self) key).
  set (lk := mkFileLock (fdb_lock_file (file_db self)) "w").
  set (w1 := FileLock__enter__ lk (opened (fdb_lock_file (file_db self)) w)).
  set (t' := set_lrucache (dict_set key (v + 1) (usage_of (index_of self) w))
               (loaded (index_of self) lk w)).
  assert (Hnode : nodes w1 !! repo_path = nodes w !! repo_path).
  { unfold w1. simpl. by rewrite lookup_insert_ne. }
  assert (Hrun : get F E self git_url w
                 = (match Repo_open repo_path w1 with
                    | (Ok r, _) => Ok (Some r)
                    | (Raise e, _) => Raise e
                    end, Transaction__exit__ E t' w1)).
  { unfold get, mbind, lift. rewrite Hkey.
    rewrite (write_transaction_runs F E HF HB _ _ _ Hlk Hread).
    unfold get_lookup, tbind, tget, tmodify, tlift, tret. cbv zeta.
    fold lk. fold w1. fold repo_path.
    change (lrucache (loaded (fdb_db_file (file_db self)) lk w))
      with (usage_of (index_of self) w).
    rewrite Hin. unfold dict_incr. rewrite Hget.
    destruct (Repo_open repo_path w1) as [[rp|e] w2] eqn:Ho;
      apply Repo_open_inv in Ho as Hw; subst w2; done. }
  destruct (usage_after_exit E t' w1 eq_refl) as (Hu & Hb & Hn & Hf).
  eexists _, _. split; [exact Hrun|].
  split; [exact Hu|]. split; [exact Hb|]. split; [by rewrite Hn|].
  split; [rewrite Hf; apply (quiet_trans _ _ _ (quiet_opened _ w) (quiet_enter lk _))|].
  unfold Repo_open. rewrite Hnode.
  split; intros ->; done.
Qed.

End Hit.

Lemma startswith_char s d :
  startswith s [d] = match s with [] => false | c :: _ => bool_decide (c = d) end.
Proof.
  unfold startswith. destruct s as [|c s].
  - apply bool_decide_eq_false. intros [k Hk]. done.
  - apply bool_decide_ext. split.
    + intros [k Hk]. simpl in Hk. congruence.
    + intros ->. by exists s.
Qed.

(** The lock file of a key is not its directory. *)
Lemma lock_path_differs base key :
  os_path_join base (key +:+ ".lock") <> os_path_join base key.
Proof.
  intros H. apply (f_equal (fun s => length (of_string s))) in H. revert H.
  unfold os_path_join. rewrite (of_string_app key ".lock").
  change (of_string "/") with ["/"%char]. rewrite !startswith_char.
  assert (Hhead : match of_string key ++ of_string ".lock" with
                  | [] => false | c :: _ => bool_decide (c = "/"%char) end
                  = match of_string key with
                    | [] => false | c :: _ => bool_decide (c = "/"%char) end).
  { destruct (of_string key); done. }
  rewrite Hhead.
  repeat case_match; rewrite ?of_string_app, ?length_app; simpl; lia.
Qed.

Section Commit.
Variable F : string -> string -> M FileLock.
Variable E : Env.
Hypothesis HF : lock_class_ok F.
Hypothesis HB : builds_write_locks F.

(** A write transaction on a readable index whose body leaves the index
    file alone and calls no fetcher: what it leaves in the index and on
    disk. *)
Lemma write_transaction_commits {A} (fdb : FileDB) (body : TM A) r t' w w2 :
  let lk := mkFileLock (fdb_lock_file fdb) "w" in
  let w1 := FileLock__enter__ lk (opened (fdb_lock_file fdb) w) in
  nodes w !! fdb_lock_file fdb <> Some Dir ->
  docs w !! fdb_db_file fdb <> Some Garbled ->
  body (loaded (fdb_db_file fdb) lk w) w1 = (r, t', w2) ->
  quiet w1 w2 ->
  db_file t' = fdb_db_file fdb ->
  lock_file t' = lk ->
  exists w',
    with_Transaction E (lock F fdb) body w = (r, w')
    /\ usage_of (fdb_db_file fdb) w' = lrucache t'
    /\ bad_of (fdb_db_file fdb) w' = badcache t'
    /\ nodes w' = nodes w2
    /\ fetches (trace w') = fetches (trace w)
    /\ docs w' !! fdb_db_file fdb <> Some Garbled.
Proof.
  intros lk w1 Hlk Hread Hbody Hq Hdb Hlf.
  exists (Transaction__exit__ E t' w2).
  rewrite (write_transaction_runs F E HF HB _ _ _ Hlk Hread). cbv zeta.
  fold lk. fold w1. rewrite Hbody.
  assert (Hm : mode (lock_file t') = "w") by (by rewrite Hlf).
  destruct (usage_after_exit E t' w2 Hm) as (Hu & Hb & Hn & Hf).
  rewrite Hdb in Hu, Hb.
  split; [done|]. split; [done|]. split; [done|]. split; [done|].
  split.
  { rewrite Hf. destruct Hq as [_ ->].
    apply (quiet_trans _ _ _ (quiet_opened _ w) (quiet_enter lk _)). }
  unfold Transaction__exit__. rewrite Hm. simpl. rewrite Hdb. by rewrite lookup_insert_eq.
Qed.

End Commit.

Lemma dict_set_absent k v d : dict_in k d = false -> dict_set k v d = d ++ [(k, v)].
Proof.
  unfold dict_in. intros H%bool_decide_eq_false.
  induction d as [|[k' v'] d IH]; simpl in *; [done|].
  rewrite not_elem_of_cons in H. destruct H as [Hne Hd].
  rewrite bool_decide_false by congruence. by rewrite IH.
Qed.

(** ** A miss *)

Section NewKey.
Variable F : string -> string -> M FileLock.
Variable E : Env.
Hypothesis HF : lock_class_ok F.
Hypothesis HB : builds_write_locks F.
Variable self : LRURepoPoolSafe.

Lemma get_miss_runs git_url key w :
  _digest git_url = Ok key ->
  dict_in key (usage_of (index_of self) w) = false ->
  key ∉ bad_of (index_of self) w ->
  usage_count self w < max_size self ->
  docs w !! index_of self <> Some Garbled ->
  nodes w !! fdb_lock_file (file_db self) <> Some Dir ->
  nodes w !! os_path_join (repo_base self) (key +:+ ".lock") <> Some Dir ->
  nodes w !! os_path_join (repo_base self) key = None ->
  fdb_lock_file (file_db self) <> os_path_join (repo_base self) key ->
  clone_ok E git_url = true ->
  exists w',
    get F E self git_url w = (Ok (Some (mkRepo (os_path_join (repo_base self) key))), w')
    /\ usage_of (index_of self) w' = usage_of (index_of self) w ++ [(key, 1)]
    /\ bad_of (index_of self) w' = bad_of (index_of self) w
    /\ fetches (trace w') = fetches (trace w) ++ [(git_url, os_path_join (repo_base self) key)]
    /\ nodes w' = <[os_path_join (repo_base self) key := Dir]>
                   (<[os_path_join (repo_base self) (key +:+ ".lock") := File]>
                      (<[fdb_lock_file (file_db self) := File]> (nodes w))).
Proof.
  intros Hkey Hin Hbad Hroom Hread Hlk Hrl Hrp Hne Hclone.
  set (repo_path := os_path_join (repo_base self) key) in *.
  set (repo_lock := os_path_join (repo_base self) (key +:+ ".lock")) in *.
  set (idx_lock := fdb_lock_file (file_db self)) in *.
  set (db := fdb_db_file (file_db self)).
  set (lk := mkFileLock idx_lock "w").
  assert (Hpl : repo_lock <> repo_path) by apply lock_path_differs.
  (* the first transaction *)
  destruct (write_transaction_commits F E HF HB (file_db self)
              (get_lookup self key repo_path) (Ok None) (loaded db lk w) w
              (FileLock__enter__ lk (opened idx_lock w)) Hlk Hread)
    as (wa & Hta & Hua & Hba & Hna & Hfa & Hra); [|apply quiet_refl|done|done|].
  { unfold get_lookup, tbind, tget, tret. cbv zeta.
    change (lrucache (loaded (fdb_db_file (file_db self))
              (mkFileLock (fdb_lock_file (file_db self)) "w") w))
      with (usage_of (index_of self) w).
    change (badcache (loaded (fdb_db_file (file_db self))
              (mkFileLock (fdb_lock_file (file_db self)) "w") w))
      with (bad_of (index_of self) w).
    rewrite Hin. rewrite bool_decide_false by done.
    unfold usage_count in Hroom. apply Z.leb_gt in Hroom. by rewrite Hroom. }
  assert (Hua' : usage_of db wa = usage_of db w) by exact Hua.
  assert (Hba' : bad_of db wa = bad_of db w) by exact Hba.
  assert (Hna' : nodes wa = <[idx_lock := File]> (nodes w)) by exact Hna.
  clear Hua Hba Hna.
  (* the lock of the repository *)
  assert (Hrl_a : nodes wa !! repo_lock <> Some Dir).
  { rewrite Hna'. destruct (decide (idx_lock = repo_lock)) as [->|Hd];
      [by rewrite lookup_insert_eq|by rewrite lookup_insert_ne]. }
  set (lk2 := mkFileLock repo_lock "w").
  set (wb := FileLock__enter__ lk2 (opened repo_lock wa)).
  assert (Hnb : nodes wb = <[repo_lock := File]> (<[idx_lock := File]> (nodes w))).
  { unfold wb. simpl. by rewrite Hna'. }
  assert (Hrp_b : nodes wb !! repo_path = None).
  { rewrite Hnb, !lookup_insert_ne by done. exact Hrp. }
  assert (Hlk_b : nodes wb !! idx_lock <> Some Dir).
  { rewrite Hnb. destruct (decide (repo_lock = idx_lock)) as [->|Hd];
      [by rewrite lookup_insert_eq|]. by rewrite lookup_insert_ne, lookup_insert_eq. }
  (* the second look at the bad set *)
  destruct (write_transaction_commits F E HF HB (file_db self)
              (get_recheck key) (Ok None) (loaded db lk wb) wb
              (FileLock__enter__ lk (opened idx_lock wb)) Hlk_b Hra)
    as (wc & Htc & Huc & Hbc & Hnc & Hfc & Hrc); [|apply quiet_refl|done|done|].
  { unfold get_recheck, tbind, tget, tret. cbv zeta.
    change (badcache (loaded (fdb_db_file (file_db self))
              (mkFileLock (fdb_lock_file (file_db self)) "w") wb))
      with (bad_of db wa).
    rewrite bool_decide_false; [done|]. by rewrite Hba'. }
  assert (Huc' : usage_of db wc = usage_of db wa) by exact Huc.
  assert (Hbc' : bad_of db wc = bad_of db wa) by exact Hbc.
  assert (Hnc' : nodes wc = <[idx_lock := File]> (nodes wb)) by exact Hnc.
  clear Huc Hbc Hnc.
  (* the fetch *)
  set (wd := log [EvClone git_url repo_path] (set_nodes (<[repo_path := Dir]> (nodes wc)) wc)).
  assert (Hcl : clone_from E git_url repo_path wc = (Ok (mkRepo repo_path), wd)).
  { unfold clone_from. by rewrite Hclone. }
  assert (Hlk_d : nodes wd !! idx_lock <> Some Dir).
  { unfold wd. simpl. rewrite lookup_insert_ne by done. rewrite Hnc'.
    by rewrite lookup_insert_eq. }
  assert (Hrd : docs wd !! db <> Some Garbled) by exact Hrc.
  (* the record *)
  set (t' := set_lrucache (dict_set key 1 (usage_of db wd)) (loaded db lk wd)).
  destruct (write_transaction_commits F E HF HB (file_db self)
              (get_record key repo_path) (Ok (Some (mkRepo repo_path))) t' wd
              (FileLock__enter__ lk (opened idx_lock wd)) Hlk_d Hrd)
    as (we & Hte & Hue & Hbe & Hne' & Hfe & Hre); [|apply quiet_refl|done|done|].
  { unfold get_record, tbind, tget, tmodify, tlift, tret. cbv zeta.
    change (lrucache (loaded (fdb_db_file (file_db self))
              (mkFileLock (fdb_lock_file (file_db self)) "w") wd))
      with (usage_of db wc).
    assert (Hin_c : dict_in key (usage_of db wc) = false) by (by rewrite Huc', Hua').
    rewrite Hin_c.
    assert (Hdir : nodes (FileLock__enter__ lk (opened idx_lock wd)) !! repo_path = Some Dir).
    { simpl. rewrite lookup_insert_ne by done. apply lookup_insert_eq. }
    unfold lk, idx_lock in Hdir. unfold Repo_open. change (negb false) with true. cbv beta iota.
    by rewrite Hdir. }
  exists (FileLock__exit__ lk2 we).
  split.
  { unfold get, mbind, lift. rewrite Hkey. fold repo_path repo_lock. rewrite Hta.
    rewrite (with_FileLock_runs F HF HB _ _ _ Hrl_a). cbv zeta. fold lk2. fold wb.
    unfold get_locked, exists_. rewrite Hrp_b.
    rewrite bool_decide_false by (by intros [? ?]).
    unfold mbind. rewrite Htc, Hcl, Hte. done. }
  assert (Habs : dict_set key 1 (usage_of db w) = usage_of db w ++ [(key, 1)]).
  { apply dict_set_absent. exact Hin. }
  split.
  { etrans; [exact Hue|]. unfold t'. cbn [lrucache set_lrucache].
    change (usage_of db wd) with (usage_of db wc). by rewrite Huc', Hua'. }
  split.
  { etrans; [exact Hbe|]. unfold t'. cbn [badcache set_lrucache loaded].
    change (bad_of db wd) with (bad_of db wc). by rewrite Hbc', Hba'. }
  split.
  { cbn [trace FileLock__exit__ log]. rewrite fetches_app, Hfe. cbn [fetches omap].
    rewrite app_nil_r. unfold wd. cbn [trace log set_nodes].
    rewrite fetches_app, Hfc. unfold wb. cbn [trace FileLock__enter__ opened log set_nodes].
    rewrite !fetches_app, Hfa. cbn. by rewrite !app_nil_r. }
  cbn [nodes FileLock__exit__ log]. rewrite Hne'.
  cbn [nodes FileLock__enter__ opened log set_nodes wd]. unfold wd.
  cbn [nodes log set_nodes]. rewrite Hnc', Hnb.
  apply map_eq. intros p.
  destruct (decide (repo_path = p)) as [Hp1|Hp1];
    destruct (decide (repo_lock = p)) as [Hp2|Hp2];
    destruct (decide (idx_lock = p)) as [Hp3|Hp3];
    try congruence;
    rewrite ?Hp1, ?Hp2, ?Hp3;
    repeat first [rewrite lookup_insert_eq | rewrite lookup_insert_ne by congruence];
    done.
Qed.

End NewKey.

Lemma rmtree_when_outside path w r w' :
  when (exists_ path w) (rmtree path) w = (r, w') ->
  forall p, is_under path p = false -> nodes w' !! p = nodes w !! p.
Proof.
  unfold when, rmtree, mret. intros H p Hp.
  destruct (exists_ path w); [|by simplify_eq].
  destruct (nodes w !! path) as [[]|]; simplify_eq; [|done|done]. simpl.
  destruct (nodes w !! p) as [n|] eqn:Hn.
  - by apply map_lookup_filter_Some_2.
  - apply map_lookup_filter_None. by left.
Qed.

Lemma unlink_when_outside path w r w' :
  when (exists_ path w) (unlink path) w = (r, w') ->
  forall p, p <> path -> nodes w' !! p = nodes w !! p.
Proof.
  unfold when, unlink, mret. intros H p Hp.
  destruct (exists_ path w); [|by simplify_eq].
  destruct (nodes w !! path) as [[]|]; simplify_eq; [done| |done]. simpl.
  by apply lookup_delete_ne.
Qed.

Lemma dict_in_readable db w key :
  dict_in key (usage_of db w) = true -> docs w !! db <> Some Garbled.
Proof.
  intros H. apply usage_of_readable. intros Hn. rewrite Hn in H. done.
Qed.

(** ** Eviction of a cached key *)

Section EvictCached.
Variable F : string -> string -> M FileLock.
Variable E : Env.
Hypothesis HF : lock_class_ok F.
Hypothesis HB : builds_write_locks F.
Variable self : LRURepoPoolSafe.


End EvictCached.

(** ** Eviction of a key that is not cached *)

Section EvictAbsent.
Variable F : string -> string -> M FileLock.
Variable E : Env.
Hypothesis HF : lock_class_ok F.
Hypothesis HB : builds_write_locks F.
Hypothesis HR : builds_on_files F.
Variable self : LRURepoPoolSafe.


End EvictAbsent.



Lemma dict_get_set k v d : dict_get k (dict_set k v d) = Some v.
Proof.
  induction d as [|[k' v'] d IH]; simpl.
  - by rewrite bool_decide_true.
  - case_bool_decide as Hk; simpl; [by rewrite bool_decide_true|].
    by rewrite bool_decide_false.
Qed.

Lemma dict_set_set k x y d : dict_set k x (dict_set k y d) = dict_set k x d.
Proof.
  induction d as [|[k' v'] d IH]; simpl.
  - by rewrite bool_decide_true.
  - case_bool_decide as Hk; simpl; [by rewrite bool_decide_true|].
    rewrite bool_decide_false by done. by rewrite IH.
Qed.

Lemma dict_set_same k v d : dict_get k d = Some v -> dict_set k v d = d.
Proof.
  induction d as [|[k' v'] d IH]; simpl; [done|].
  case_bool_decide as Hk; [by intros [= ->]|]. intros H. by rewrite IH.
Qed.

(** ** A pool without room *)

Section NoRoom.
Variable F : string -> string -> M FileLock.
Variable E : Env.
Hypothesis HF : lock_class_ok F.
Hypothesis HB : builds_write_locks F.
Variable self : LRURepoPoolSafe.


End NoRoom.

(** ** Callers one after the other *)

Section Callers.
Variable F : string -> string -> M FileLock.
Variable E : Env.
Hypothesis HF : lock_class_ok F.
Hypothesis HB : builds_write_locks F.
Variable self : LRURepoPoolSafe.
Variable git_url key : string.
Hypothesis Hkey : _digest git_url = Ok key.
Hypothesis Hne : fdb_lock_file (file_db self) <> os_path_join (repo_base self) key.

Lemma hits_in_a_row n : forall v w,
  dict_get key (usage_of (index_of self) w) = Some v ->
  nodes w !! fdb_lock_file (file_db self) <> Some Dir ->
  nodes w !! os_path_join (repo_base self) key = Some Dir ->
  exists w',
    callers n (get F E self git_url) w
    = (replicate n (Ok (Some (mkRepo (os_path_join (repo_base self) key)))), w')
    /\ usage_of (index_of self) w'
       = dict_set key (v + Z.of_nat n) (usage_of (index_of self) w)
    /\ bad_of (index_of self) w' = bad_of (index_of self) w
    /\ fetches (trace w') = fetches (trace w).
Proof.
  induction n as [|n IH]; intros v w Hget Hlk Hdir.
  - exists w. simpl. rewrite Z.add_0_r. by rewrite (dict_set_same _ _ _ Hget).
  - destruct (get_hit_runs F E HF HB self git_url key v w Hkey Hget Hlk Hne)
      as (r & w1 & Hrun & Hu1 & Hb1 & Hn1 & Hf1 & Hr & _).
    specialize (Hr Hdir). subst r.
    destruct (IH (v + 1) w1) as (w' & Hrest & Hu & Hb & Hf).
    + rewrite Hu1. apply dict_get_set.
    + rewrite Hn1, lookup_insert_eq. done.
    + rewrite Hn1, lookup_insert_ne by done. exact Hdir.
    + exists w'. cbn [callers]. rewrite Hrun, Hrest. split; [done|].
      split; [|split; congruence].
      rewrite Hu, Hu1, dict_set_set. f_equal. lia.
Qed.


End Callers.


(** ** A hit and a miss, as [get] runs them *)

Section HitAndMiss.
Variable F : string -> string -> M FileLock.
Variable E : Env.
Hypothesis HF : lock_class_ok F.
Hypothesis HB : builds_write_locks F.
Variable self : LRURepoPoolSafe.



End HitAndMiss.






Lemma get_fetches_at_most_once_witness :
  let w' := snd (get FileLock_mode_first E0 P2 "host:g/a" w0) in
  fetches (trace w') = fetches (trace w0)
  \/ (fetches (trace w') = fetches (trace w0) ++ [("host:g/a", os_path_join (repo_base P2) "g+a")]
      /\ dict_in "g+a" (usage_of (index_of P2) w0) = false
      /\ ("g+a" ∉ bad_of (index_of P2) w0)).
Proof.
  apply (get_fetches_at_most_once FileLock_mode_first E0 FileLock_mode_first_ok P2
           "host:g/a" "g+a" w0 (fst (get FileLock_mode_first E0 P2 "host:g/a" w0))).
  - reflexivity.
  - vm_compute. reflexivity.
Defined.

Lemma get_answers_are_sound_witness :
  let r := fst (get FileLock_mode_first E0 P2 "host:bad/repo" w0) in
  let w' := snd (get FileLock_mode_first E0 P2 "host:bad/repo" w0) in
  (forall repo, r = Ok (Some repo) ->
     working_dir repo = os_path_join (repo_base P2) "bad+repo"
     /\ nodes w' !! os_path_join (repo_base P2) "bad+repo" = Some Dir)
  /\ (r = Ok None -> "bad+repo" ∈ bad_of (index_of P2) w').
Proof.
  apply (get_answers_are_sound FileLock_mode_first E0 FileLock_mode_first_ok P2
           "host:bad/repo" "bad+repo" w0).
  - reflexivity.
  - vm_compute. reflexivity.
Defined.

Lemma bad_set_only_grows_witness :
  Forall (fun w' => bad_of (index_of P2) w_bad ⊆ bad_of (index_of P2) w')
    (states FileLock_mode_first E0 P2
       [Get "host:bad/repo"; Evict "host:bad/repo"; Get "host:g/a"; Get "host:bad/other"] w_bad).
Proof.
  apply (bad_set_only_grows FileLock_mode_first E0 FileLock_mode_first_ok P2).
Defined.

